(** * IBFT round state and sync service of polygon-sdk: a shallow embedding

  The development follows two Go source files:
  - [consensus/ibft/state.go]: the validator set, proposer selection and the
    per-round message store of the IBFT driver ([Module ibft]);
  - [protocol/service_v1.go]: the GRPC endpoints [GetObjectsByHash] and
    [GetHeaders] of the sync protocol ([Module protocol]).

  Go integers are modelled as [Z] with their wrap-around written out, Go maps
  as [gmap], slices as lists, and a run-time panic as [None]. *)

From Stdlib Require Import ZArith QArith Qround Qabs Lia Lqa Ascii.
From stdpp Require Import base option list gmap strings.

#[local] Open Scope Z_scope.

(** ** Machine integers *)

Module machine.

(** Conversion to [uint64]: reduction modulo 2^64. *)
Definition uint64 (z : Z) : Z := z `mod` 2 ^ 64.

(** Conversion to [int64]: two's complement reading of the low 64 bits. *)
Definition int64 (z : Z) : Z := (z + 2 ^ 63) `mod` 2 ^ 64 - 2 ^ 63.

Definition is_uint64 (z : Z) : Prop := 0 <= z < 2 ^ 64.
Definition is_int64 (z : Z) : Prop := - 2 ^ 63 <= z < 2 ^ 63.

End machine.

(** ** Package [types]: the data the two files manipulate *)

Module types.

(** [types.Address] is a [20]byte array, read here as the number it spells. *)
Definition Address : Type := N.
Definition ZeroAddress : Address := 0%N.

(** [types.Hash] is a [32]byte array, read the same way. *)
Definition Hash : Type := N.

#[global] Instance Address_eq_dec : EqDecision Address := N.eq_dec.
#[global] Instance Address_countable : Countable Address := N_countable.
#[global] Instance Hash_eq_dec : EqDecision Hash := N.eq_dec.

(** The header fields that the node's packages read and write. *)
Record Header : Type := mkHeader {
  ParentHash : Hash;
  Number : Z;            (* uint64 *)
  StateRoot : Hash;
  GasLimit : Z;
  GasUsed : Z;
  Timestamp : Z;
  HeaderHash : Hash
}.

Record Block : Type := mkBlock { BlockHeader : Header }.

End types.

(** ** Package [ibft], file [state.go] *)

Module ibft.
Import machine types.

Inductive MessageReq_Type : Type :=
| MessageReq_Preprepare
| MessageReq_Prepare
| MessageReq_Commit
| MessageReq_RoundChange.

#[global] Instance MessageReq_Type_eq_dec : EqDecision MessageReq_Type.
Proof. solve_decision. Defined.

(** [proto.View]: the round and the sequence (height), both [uint64]. *)
Record View : Type := mkView { Round : Z; Sequence : Z }.

(** [proto.MessageReq]; [FromAddr] is the sender's address. *)
Record MessageReq : Type := mkMessageReq {
  MsgType : MessageReq_Type;
  FromAddr : Address;
  MsgView : View;
  Payload : list Z
}.

(** [type ValidatorSet []types.Address] *)
Definition ValidatorSet : Type := list Address.

(** [Len] returns the size of the validator set (a Go [int]). *)
Definition Len (v : ValidatorSet) : Z := Z.of_nat (length v).

(** [Index]: the first position holding [addr], or -1. *)
Fixpoint Index_from (v : ValidatorSet) (addr : Address) (indx : Z) : Z :=
  match v with
  | [] => -1
  | i :: rest =>
      if decide (i = addr) then indx else Index_from rest addr (indx + 1)
  end.

Definition Index (v : ValidatorSet) (addr : Address) : Z := Index_from v addr 0.

Definition Includes (v : ValidatorSet) (addr : Address) : bool :=
  negb (Index v addr =? -1).

(** [CalcProposer]: the seed is computed in [uint64]. Its last two lines,
    [pick := seed % uint64(v.Len())] and the indexing of the set by [pick],
    are [CalcProposer_from]: the remainder by a zero length panics, which is
    [None] here, and so would an index out of range. *)
Definition CalcProposer_from (v : ValidatorSet) (seed : Z) : option Address :=
  if decide (uint64 (Len v) = 0) then None
  else v !! Z.to_nat (seed `mod` uint64 (Len v)).

Definition CalcProposer (v : ValidatorSet) (round : Z) (lastProposer : Address)
  : option Address :=
  let seed :=
    if decide (lastProposer = ZeroAddress) then round
    else
      let indx := Index v lastProposer in
      let offset := if decide (indx ≠ -1) then indx else 0 in
      uint64 (uint64 (uint64 offset + round) + 1) in
  CalcProposer_from v seed.

(** [Add] appends the address. *)
Definition Add (v : ValidatorSet) (addr : Address) : ValidatorSet := v ++ [addr].

(** [Del]. The [range] clause fixes the slice header once, so the loop runs
    over every index of the original length and reads the backing array as
    the body has left it. The body [append(v[:indx], v[indx+1:]...)]
    moves the tail of the current slice one cell to the left inside the
    backing array and shortens the current slice by one; the cell at the old
    last position keeps its value. [v[indx+1:]] panics when [indx + 1]
    exceeds the current length.

    The loop state is the backing array together with the current length of
    the set; [n] counts the iterations still to run. *)
Fixpoint Del_loop (addr : Address) (n : nat) (indx : nat)
    (backing : list Address) (len : nat) : option (list Address * nat) :=
  match n with
  | O => Some (backing, len)
  | S n' =>
      match backing !! indx with
      | None => None
      | Some i =>
          if decide (i = addr) then
            if decide (indx + 1 <= len)%nat then
              let moved :=
                take indx backing ++ drop (indx + 1) (take len backing)
                  ++ drop (len - 1) backing in
              Del_loop addr n' (S indx) moved (len - 1)
            else None
          else Del_loop addr n' (S indx) backing len
      end
  end.

Definition Del (v : ValidatorSet) (addr : Address) : option ValidatorSet :=
  match Del_loop addr (length v) 0 v (length v) with
  | Some (backing, len) => Some (take len backing)
  | None => None
  end.

(** [Equal]: same length and the same address at every index. *)
Fixpoint Equal_loop (v vv : ValidatorSet) : bool :=
  match v, vv with
  | i :: v', j :: vv' => if decide (i ≠ j) then false else Equal_loop v' vv'
  | _, _ => true
  end.

Definition Equal (v vv : ValidatorSet) : bool :=
  if decide (Len v ≠ Len vv) then false else Equal_loop v vv.

(** [MinFaultyNodes] is [int(math.Ceil(float64(len(v))/3)) - 1]. The
    quotient is taken in the rationals. [MinFaultyNodes_float64] below is the
    same computation with the two roundings of [float64] left in, the
    conversion of the length and the division; for every rounding that is
    exact on the integers up to 2^53 and off by at most 1/4 below 2^52, as
    rounding to nearest with a 53-bit significand is, the two agree on every
    set of at most 2^53 addresses ([MinFaultyNodes_float64_exact]). *)
Definition MinFaultyNodes (v : ValidatorSet) : Z :=
  Qceiling (inject_Z (Len v) / 3) - 1.

Definition float64_rounding (rnd : Q → Q) : Prop :=
  Proper (Qeq ==> Qeq) rnd ∧
  (∀ z : Z, 0 <= z <= 2 ^ 53 → (rnd (inject_Z z) == inject_Z z)%Q) ∧
  (∀ x : Q, (0 <= x)%Q → (x < inject_Z (2 ^ 52))%Q →
     (Qabs (rnd x - x) <= 1 # 4)%Q).

Definition MinFaultyNodes_float64 (rnd : Q → Q) (v : ValidatorSet) : Z :=
  Qceiling (rnd (rnd (inject_Z (Len v)) / 3)%Q) - 1.

(** [currentState]. The maps are Go maps keyed by sender address; the
    round-change messages are kept per round. *)
Record currentState : Type := mkState {
  validators : ValidatorSet;
  state : Z;
  block : option Block;
  proposer : Address;
  view : option View;
  prepared : gmap Address MessageReq;
  committed : gmap Address MessageReq;
  roundMessages : gmap Z (gmap Address MessageReq);
  locked : bool;
  err : option string
}.

Definition set_prepared (c : currentState) (m : gmap Address MessageReq)
  : currentState :=
  mkState (validators c) (state c) (block c) (proposer c) (view c)
          m (committed c) (roundMessages c) (locked c) (err c).

Definition set_committed (c : currentState) (m : gmap Address MessageReq)
  : currentState :=
  mkState (validators c) (state c) (block c) (proposer c) (view c)
          (prepared c) m (roundMessages c) (locked c) (err c).

Definition set_roundMessages (c : currentState)
    (m : gmap Z (gmap Address MessageReq)) : currentState :=
  mkState (validators c) (state c) (block c) (proposer c) (view c)
          (prepared c) (committed c) m (locked c) (err c).

(** [NumValid] returns the number of required messages. *)
Definition NumValid (c : currentState) : Z := 2 * MinFaultyNodes (validators c).

(** [maxRound]: one step of the loop body, then the loop as a fold over the
    map. The named results start at [(0, false)]. *)
Definition maxRound_step (num : Z) (k : Z) (round : gmap Address MessageReq)
    (acc : Z * bool) : Z * bool :=
  if decide (Z.of_nat (size round) < num) then acc
  else if decide (acc.1 < k) then (k, true) else acc.

Definition maxRound (c : currentState) : Z * bool :=
  let num := MinFaultyNodes (validators c) + 1 in
  map_fold (maxRound_step num) (0, false) (roundMessages c).

(** [resetRoundMsgs] *)
Definition resetRoundMsgs (c : currentState) : currentState :=
  mkState (validators c) (state c) (block c) (proposer c) (view c)
          ∅ ∅ ∅ (locked c) (err c).

(** [cleanRound] deletes the specific round messages. *)
Definition cleanRound (c : currentState) (round : Z) : currentState :=
  set_roundMessages c (delete round (roundMessages c)).

(** [numRounds] *)
Definition numRounds (c : currentState) (round : Z) : Z :=
  match roundMessages c !! round with
  | None => 0
  | Some obj => Z.of_nat (size obj)
  end.

(** [addMessage] adds a message to one of the three message stores. *)
Definition addMessage (c : currentState) (msg : MessageReq) : currentState :=
  let addr := FromAddr msg in
  if negb (Includes (validators c) addr) then c
  else
    match MsgType msg with
    | MessageReq_Commit => set_committed c (<[addr := msg]> (committed c))
    | MessageReq_Prepare => set_prepared c (<[addr := msg]> (prepared c))
    | MessageReq_RoundChange =>
        let round := Round (MsgView msg) in
        let rounds :=
          match roundMessages c !! round with
          | Some _ => roundMessages c
          | None => <[round := ∅]> (roundMessages c)
          end in
        set_roundMessages c
          (<[round := <[addr := msg]> (default ∅ (rounds !! round))]> rounds)
    | MessageReq_Preprepare => c
    end.

(** [AddRoundMessage] returns the state and the size of the round's map. *)
Definition AddRoundMessage (c : currentState) (msg : MessageReq)
  : currentState * Z :=
  if decide (MsgType msg ≠ MessageReq_RoundChange) then (c, 0)
  else
    let c' := addMessage c msg in
    (c', Z.of_nat (size (default ∅ (roundMessages c' !! Round (MsgView msg))))).

Definition addPrepared (c : currentState) (msg : MessageReq) : currentState :=
  if decide (MsgType msg ≠ MessageReq_Prepare) then c else addMessage c msg.

Definition addCommitted (c : currentState) (msg : MessageReq) : currentState :=
  if decide (MsgType msg ≠ MessageReq_Commit) then c else addMessage c msg.

Definition numPrepared (c : currentState) : Z := Z.of_nat (size (prepared c)).
Definition numCommitted (c : currentState) : Z := Z.of_nat (size (committed c)).

(** [CalcProposer] of the state sets the proposer that the validator set
    selects for the round of the current view. Reading the round of a nil
    view panics, and so does the selection over an empty set. *)
Definition set_proposer (c : currentState) (p : Address) : currentState :=
  mkState (validators c) (state c) (block c) p (view c)
          (prepared c) (committed c) (roundMessages c) (locked c) (err c).

Definition state_CalcProposer (c : currentState) (lastProposer : Address)
  : option currentState :=
  match view c with
  | None => None
  | Some vw =>
      match CalcProposer (validators c) (Round vw) lastProposer with
      | Some p => Some (set_proposer c p)
      | None => None
      end
  end.

(** *** Predicates on the round state used in the statements *)

(** A round qualifies for [maxRound] when its map holds at least [num]
    messages. *)
Definition qualifies (num : Z) (rounds : gmap Z (gmap Address MessageReq))
    (k : Z) : Prop :=
  ∃ round, rounds !! k = Some round ∧ num <= Z.of_nat (size round).

(** The entries of a message store whose message was sent by [sender]. *)
Definition entries_from (sender : Address) (m : gmap Address MessageReq)
  : list (Address * MessageReq) :=
  filter (λ e, FromAddr e.2 = sender) (map_to_list m).

(** One message store is well formed: at most one entry per sender, no entry
    keyed outside the validator set, and every message filed under the address
    that sent it. *)
Definition bucket_inv (v : ValidatorSet) (m : gmap Address MessageReq) : Prop :=
  (∀ sender, (length (entries_from sender m) <= 1)%nat) ∧
  (∀ a, is_Some (m !! a) → a ∈ v) ∧
  (∀ a msg, m !! a = Some msg → FromAddr msg = a).

Definition state_inv (c : currentState) : Prop :=
  bucket_inv (validators c) (prepared c) ∧
  bucket_inv (validators c) (committed c) ∧
  (∀ r m, roundMessages c !! r = Some m → bucket_inv (validators c) m).

(** The same invariant entry by entry, the form the proofs work with. *)
Definition bucket_ok (v : ValidatorSet) (m : gmap Address MessageReq) : Prop :=
  ∀ a msg, m !! a = Some msg → FromAddr msg = a ∧ a ∈ v.

Definition state_ok (c : currentState) : Prop :=
  bucket_ok (validators c) (prepared c) ∧
  bucket_ok (validators c) (committed c) ∧
  (∀ r m, roundMessages c !! r = Some m → bucket_ok (validators c) m).

End ibft.

(** ** Package [protocol], file [service_v1.go] *)

Module protocol.
Import machine types.

(** A Go [error] value, by its message. *)
Definition error : Type := string.

(** The [rlpObject] interface; only the encoder is called by the service. *)
Class rlpObject (T : Type) : Type := {
  MarshalRLPTo : T → list Byte.byte → list Byte.byte
}.

(** [blockchainShim]: the four look-ups of the store that the service
    calls. A [(value, ok)] pair is an [option], a [(value, err)] pair a sum. *)
Record blockchainShim (Body Receipt : Type) : Type := mkStore {
  GetHeaderByNumber : Z → option Header;
  GetHeaderByHash : Hash → option Header;
  GetBodyByHash : Hash → option Body;
  GetReceiptsByHash : Hash → error + list Receipt
}.
Arguments mkStore {Body Receipt}.
Arguments GetHeaderByNumber {Body Receipt}.
Arguments GetHeaderByHash {Body Receipt}.
Arguments GetBodyByHash {Body Receipt}.
Arguments GetReceiptsByHash {Body Receipt}.

(** [proto.HashRequest_Type]: the two declared kinds; any other number can
    arrive on the wire and falls through both branches of the service. *)
Inductive HashRequest_Type : Type :=
| HashRequest_BODIES
| HashRequest_RECEIPTS
| HashRequest_unknown (n : Z).

Record HashRequest : Type := mkHashRequest {
  HR_Hash : list string;
  HR_Type : HashRequest_Type
}.

(** [proto.GetHeadersRequest]: three [int64] fields and the hash text. *)
Record GetHeadersRequest : Type := mkGetHeadersRequest {
  GH_Number : Z;
  GH_Hash : string;
  GH_Skip : Z;
  GH_Amount : Z
}.

(** [proto.Response_Component], by the [Value] of its [Spec]. *)
Record Response_Component : Type := mkComponent { Value : list Byte.byte }.

Record Response : Type := mkResponse { Objs : list Response_Component }.

Definition maxHeadersAmount : Z := 190.

Section service.
Context {Body Receipt : Type}.
Context `{!rlpObject Header, !rlpObject Body, !rlpObject (list Receipt)}.

(** [req.DecodeHashes()] and [hash.UnmarshalText()] live in other packages
    and are taken as given. *)
Variable DecodeHashes : HashRequest → error + list Hash.
Variable UnmarshalText : string → error + Hash.

(** The interface value [obj] holds a body or a receipts list. *)
Inductive object : Type :=
| ObjBody (b : Body)
| ObjReceipts (r : list Receipt).

Definition object_MarshalRLPTo (obj : object) (dst : list Byte.byte)
  : list Byte.byte :=
  match obj with
  | ObjBody b => MarshalRLPTo b dst
  | ObjReceipts r => MarshalRLPTo r dst
  end.

(** The look-up at the head of the loop body: an error leaves the
    function, otherwise [obj] is set when [found] is. *)
Definition lookupObject (s : blockchainShim Body Receipt)
    (ty : HashRequest_Type) (hash : Hash) : error + option object :=
  match ty with
  | HashRequest_BODIES => inr (ObjBody <$> GetBodyByHash s hash)
  | HashRequest_RECEIPTS =>
      match GetReceiptsByHash s hash with
      | inl err => inl err
      | inr raw => inr (Some (ObjReceipts raw))
      end
  | HashRequest_unknown _ => inr None
  end.

Definition objectData (found : option object) : list Byte.byte :=
  match found with
  | Some obj => object_MarshalRLPTo obj []
  | None => []
  end.

(** The loop of [GetObjectsByHash] over the decoded hashes; [objs] is
    [resp.Objs] so far. *)
Fixpoint GetObjectsByHash_loop (s : blockchainShim Body Receipt)
    (ty : HashRequest_Type) (hashes : list Hash)
    (objs : list Response_Component) : error + list Response_Component :=
  match hashes with
  | [] => inr objs
  | hash :: rest =>
      match lookupObject s ty hash with
      | inl err => inl err
      | inr found =>
          GetObjectsByHash_loop s ty rest
            (objs ++ [mkComponent (objectData found)])
      end
  end.

Definition GetObjectsByHash (s : blockchainShim Body Receipt)
    (req : HashRequest) : error + Response :=
  match DecodeHashes req with
  | inl err => inl err
  | inr hashes =>
      match GetObjectsByHash_loop s (HR_Type req) hashes [] with
      | inl err => inl err
      | inr objs => inr (mkResponse objs)
      end
  end.

(** [addData] wraps the encoding of a header. *)
Definition addData (h : Header) : Response_Component :=
  mkComponent (MarshalRLPTo h []).

(** The loop of [GetHeaders]. [todo] is [req.Amount - count]: the
    condition [count < req.Amount] is [todo > 0] and [count++] takes one
    off. [block] is computed in [int64]. *)
Fixpoint GetHeaders_loop (s : blockchainShim Body Receipt) (skip : Z)
    (todo : nat) (origin : Header) (objs : list Response_Component)
  : list Response_Component :=
  match todo with
  | O => objs
  | S todo' =>
      let block := int64 (int64 (Number origin) + skip) in
      if decide (block < 0) then objs
      else
        match GetHeaderByNumber s (uint64 block) with
        | None => objs
        | Some origin' =>
            GetHeaders_loop s skip todo' origin' (objs ++ [addData origin'])
        end
  end.

Definition GetHeaders (s : blockchainShim Body Receipt)
    (req : GetHeadersRequest) : error + Response :=
  if decide (GH_Number req ≠ 0 ∧ GH_Hash req ≠ EmptyString)
  then inl "cannot have both"%string
  else
    let amount :=
      if decide (GH_Amount req > maxHeadersAmount) then maxHeadersAmount
      else GH_Amount req in
    let found :=
      if decide (GH_Number req ≠ 0)
      then inr (GetHeaderByNumber s (uint64 (GH_Number req)))
      else
        match UnmarshalText (GH_Hash req) with
        | inl err => inl err
        | inr hash => inr (GetHeaderByHash s hash)
        end in
    match found with
    | inl err => inl err
    | inr None => inr (mkResponse [])
    | inr (Some origin) =>
        let skip := int64 (GH_Skip req + 1) in
        inr (mkResponse
               (GetHeaders_loop s skip (Z.to_nat (amount - 1)) origin
                  [addData origin]))
    end.

(** *** Predicates on the store and the answers used in the statements *)

(** The store files each header under its own number: the header it returns
    for a height of [uint64] bears that height as its number. *)
Definition store_wf (s : blockchainShim Body Receipt) : Prop :=
  ∀ k h, 0 <= k < 2 ^ 64 → GetHeaderByNumber s k = Some h → Number h = k.

(** What the response holds for one hash, by kind of request. *)
Definition expected_value (s : blockchainShim Body Receipt)
    (ty : HashRequest_Type) (hash : Hash) (value : list Byte.byte) : Prop :=
  match ty with
  | HashRequest_BODIES =>
      match GetBodyByHash s hash with
      | Some body => value = MarshalRLPTo body []
      | None => value = []
      end
  | HashRequest_RECEIPTS =>
      ∃ raw, GetReceiptsByHash s hash = inr raw ∧ value = MarshalRLPTo raw []
  | HashRequest_unknown _ => value = []
  end.


End service.

(** *** The client side: [getBodies] *)

Section client.
Context {Body : Type}.

(** The zero [types.Body], what [UnmarshalRLP] makes of a payload decoded
    into it, the text [h.String()] of a hash, whether the [Value] of an
    object is [nil] (which the list of its bytes does not tell), and the
    [GetObjectsByHash] of the peer's [proto.V1Client]. *)
Variable zero_Body : Body.
Variable UnmarshalRLP : list Byte.byte → error + Body.
Variable Hash_String : Hash → string.
Variable Value_is_nil : Response_Component → bool.
Variable clt_GetObjectsByHash : HashRequest → error + Response.

(** The decoding loop of [getBodies]; [res] is the result so far. *)
Fixpoint getBodies_loop (objs : list Response_Component) (res : list Body)
  : error + list Body :=
  match objs with
  | [] => inr res
  | obj :: rest =>
      if Value_is_nil obj then getBodies_loop rest (res ++ [zero_Body])
      else
        match UnmarshalRLP (Value obj) with
        | inl err => inl err
        | inr body => getBodies_loop rest (res ++ [body])
        end
  end.

Definition getBodies (hashes : list Hash) : error + list Body :=
  let input := Hash_String <$> hashes in
  match clt_GetObjectsByHash (mkHashRequest input HashRequest_BODIES) with
  | inl err => inl err
  | inr resp =>
      match getBodies_loop (Objs resp) [] with
      | inl err => inl err
      | inr res =>
          if decide (length res ≠ length input)
          then inl "not correct size"%string
          else inr res
      end
  end.

(** What one object decodes to. *)
Definition decoded_body (obj : Response_Component) : error + Body :=
  if Value_is_nil obj then inr zero_Body else UnmarshalRLP (Value obj).

End client.

End protocol.

(** ** A sample chain, codec and round state on which the statements are run

    The service takes the encoders, [DecodeHashes] and [UnmarshalText] as
    given; the ones below are stand-ins, small enough to compute with, and say
    nothing about the encoders and parsers of the node. *)

Module sample.
Import machine types ibft protocol.

(** A body by its transaction numbers, a receipt by its gas. *)
Record Body : Type := mkBody { Transactions : list Z }.
Record Receipt : Type := mkReceipt { ReceiptGas : Z }.

Definition low_byte (z : Z) : Byte.byte :=
  default Byte.x00 (Byte.of_N (Z.to_N (z `mod` 256))).

#[global] Instance Header_rlp : rlpObject Header :=
  {| MarshalRLPTo h dst := dst ++ [Byte.xc1; low_byte (Number h)] |}.
#[global] Instance Body_rlp : rlpObject Body :=
  {| MarshalRLPTo b dst := dst ++ Byte.xc2 :: (low_byte <$> Transactions b) |}.
#[global] Instance Receipts_rlp : rlpObject (list Receipt) :=
  {| MarshalRLPTo r dst :=
       dst ++ Byte.xc3 :: (low_byte <$> (ReceiptGas <$> r)) |}.

Definition header_at (k : Z) : Header :=
  mkHeader (Z.to_N (k - 1)) k 0%N 100000000 0 k (Z.to_N k).

(** The chain of the heights 0 to [top]; the hash of a block is its height. *)
Definition chain (top : Z) : blockchainShim Body Receipt :=
  mkStore
    (λ k, if decide (0 <= k <= top) then Some (header_at k) else None)
    (λ h, if decide (Z.of_N h <= top) then Some (header_at (Z.of_N h)) else None)
    (λ h, if decide (Z.of_N h <= top) then Some (mkBody [Z.of_N h]) else None)
    (λ h, if decide (Z.of_N h <= top)
          then inr [mkReceipt 21000; mkReceipt (Z.of_N h)]
          else inl "receipts not found"%string).

(** Hash texts: the prefix 0x and lower-case hexadecimal digits. *)
Definition hex_digit (c : ascii) : option N :=
  let n := N_of_ascii c in
  if ((48 <=? n) && (n <=? 57))%N then Some (n - 48)%N
  else if ((97 <=? n) && (n <=? 102))%N then Some (n - 87)%N
  else None.

Fixpoint hex_value (str : string) (acc : N) : option N :=
  match str with
  | EmptyString => Some acc
  | String c rest =>
      match hex_digit c with
      | Some d => hex_value rest (16 * acc + d)%N
      | None => None
      end
  end.

Definition UnmarshalText (str : string) : error + Hash :=
  match str with
  | String "0"%char (String "x"%char rest) =>
      match hex_value rest 0%N with
      | Some h => inr h
      | None => inl "invalid hex digit"%string
      end
  | _ => inl "missing 0x prefix"%string
  end.

Fixpoint decode_all (texts : list string) : error + list Hash :=
  match texts with
  | [] => inr []
  | t :: rest =>
      match UnmarshalText t, decode_all rest with
      | inl err, _ => inl err
      | _, inl err => inl err
      | inr h, inr hs => inr (h :: hs)
      end
  end.

Definition DecodeHashes (req : HashRequest) : error + list Hash :=
  decode_all (HR_Hash req).

(** A fresh round state over the validators [v]. *)
Definition fresh (v : ValidatorSet) : currentState :=
  resetRoundMsgs (mkState v 0 None ZeroAddress None ∅ ∅ ∅ false None).

(** The state reached from a fresh state of the single validator 10 by its
    round-change message for round 0. *)
Definition round_zero_state : currentState :=
  (AddRoundMessage (fresh [10%N])
     (mkMessageReq MessageReq_RoundChange 10%N (mkView 0 1) [])).1.

(** A body kept as the bytes of its encoding after the list tag. *)
Record Blob : Type := mkBlob { BlobBytes : list Byte.byte }.

#[global] Instance Blob_rlp : rlpObject Blob :=
  {| MarshalRLPTo b dst := dst ++ Byte.xc2 :: BlobBytes b |}.

Definition Blob_UnmarshalRLP (input : list Byte.byte) : error + Blob :=
  match input with
  | Byte.xc2 :: rest => inr (mkBlob rest)
  | _ => inl "not a body"%string
  end.

Definition blob_at (h : Hash) : Blob := mkBlob [low_byte (Z.of_N h)].

Definition blob_chain (top : Z) : blockchainShim Blob Receipt :=
  mkStore
    (GetHeaderByNumber (chain top))
    (GetHeaderByHash (chain top))
    (λ h, if decide (Z.of_N h <= top) then Some (blob_at h) else None)
    (GetReceiptsByHash (chain top)).

Definition hex_char (n : N) : ascii :=
  ascii_of_N (if (n <? 10)%N then 48 + n else 87 + n).

(** The text of a hash below 256: 0x and two digits. *)
Definition hash_text (h : Hash) : string :=
  String "0" (String "x"
    (String (hex_char (h / 16)) (String (hex_char (h `mod` 16)) EmptyString))).

Definition empty_is_nil (obj : Response_Component) : bool :=
  bool_decide (Value obj = []).

End sample.

(** * Properties *)

(** The case of the header loop that stops at once: nothing is appended. *)
Ltac loop_stops :=
  exists []; simpl; rewrite app_nil_r;
  split; [done|]; split; [lia|]; split; [by intros ? ? ?|].

(** ** The validator set *)

Section validator_set.
Import machine types ibft.

Lemma uint64_small (z : Z) : 0 <= z < 2 ^ 64 → uint64 z = z.
Proof. intros. unfold uint64. apply Z.mod_small. lia. Qed.

Lemma uint64_add3 (a b : Z) :
  uint64 (uint64 (uint64 a + b) + 1) = (a + b + 1) `mod` 2 ^ 64.
Proof.
  unfold uint64. rewrite (Zplus_mod_idemp_l a b). by rewrite Zplus_mod_idemp_l.
Qed.

Lemma Qceiling_div3 (n : Z) : Qceiling (inject_Z n / 3) = (n + 2) / 3.
Proof.
  unfold Qceiling, Qfloor, Qopp, Qdiv, Qmult, Qinv, inject_Z. simpl.
  rewrite Z.mul_1_r. Z.to_euclidean_division_equations. lia.
Qed.

Lemma MinFaultyNodes_div (v : ValidatorSet) :
  MinFaultyNodes v = (Len v + 2) / 3 - 1.
Proof. unfold MinFaultyNodes. by rewrite Qceiling_div3. Qed.

Lemma Qceiling_unique (y : Q) (c : Z) :
  (inject_Z (c - 1) < y)%Q → (y <= inject_Z c)%Q → Qceiling y = c.
Proof.
  intros Hlo Hhi.
  pose proof (Qle_ceiling y) as H1. pose proof (Qceiling_lt y) as H2.
  assert (Hc1 : (inject_Z (c - 1) < inject_Z (Qceiling y))%Q)
    by (eapply Qlt_le_trans; eauto).
  assert (Hc2 : (inject_Z (Qceiling y - 1) < inject_Z c)%Q)
    by (eapply Qlt_le_trans; eauto).
  rewrite <- Zlt_Qlt in Hc1, Hc2. lia.
Qed.

(** The conditions on the rounding can be met: the exact quotient meets them. *)
Lemma float64_rounding_exact : float64_rounding (λ x, x).
Proof.
  split; [by intros x y Hxy|]. split; [by intros z Hz|].
  intros x Hx0 Hx52. setoid_replace (x - x)%Q with 0%Q using relation Qeq by ring.
  done.
Qed.

(** The roundings of [float64] do not change [MinFaultyNodes]: the quotient
    of a length that 3 divides is an integer and is kept, and any other
    quotient is at least 1/3 away from the integers on both sides, more than
    the rounding can move it. *)
Lemma MinFaultyNodes_float64_exact (rnd : Q → Q) (v : ValidatorSet) :
  float64_rounding rnd → Len v <= 2 ^ 53 →
  MinFaultyNodes_float64 rnd v = MinFaultyNodes v.
Proof.
  intros (Hproper & Hexact & Herr) Hlen.
  unfold MinFaultyNodes_float64. rewrite MinFaultyNodes_div. f_equal.
  assert (Hn : 0 <= Len v) by (unfold Len; apply Nat2Z.is_nonneg).
  revert Hlen Hn. generalize (Len v). intros n Hlen Hn.
  assert (Hq : (rnd (rnd (inject_Z n) / 3) == rnd (inject_Z n / 3))%Q).
  { apply Hproper. rewrite Hexact; [reflexivity|lia]. }
  rewrite Hq.
  destruct (Z.eq_dec (n `mod` 3) 0) as [Hdiv|Hrem].
  - assert (Hn3 : n = 3 * (n / 3)) by (Z.to_euclidean_division_equations; lia).
    assert (Hx : (inject_Z n / 3 == inject_Z (n / 3))%Q).
    { rewrite Hn3 at 1. rewrite inject_Z_mult. field. }
    rewrite (Hproper _ _ Hx). rewrite Hexact by (Z.to_euclidean_division_equations; lia).
    rewrite Qceiling_Z. Z.to_euclidean_division_equations; lia.
  - set (q := n / 3).
    assert (Hq0 : (0 <= inject_Z q)%Q)
      by (change 0%Q with (inject_Z 0); rewrite <- Zle_Qle; subst q;
          Z.to_euclidean_division_equations; lia).
    assert (Hq52 : (inject_Z q + 1 <= inject_Z (2 ^ 52))%Q).
    { change 1%Q with (inject_Z 1). rewrite <- inject_Z_plus, <- Zle_Qle.
      subst q. Z.to_euclidean_division_equations; lia. }
    assert (Hx : (inject_Z n / 3 == inject_Z q + (1 # 3))%Q ∨
                 (inject_Z n / 3 == inject_Z q + (2 # 3))%Q).
    { assert (Hr : n = 3 * q + 1 ∨ n = 3 * q + 2)
        by (subst q; Z.to_euclidean_division_equations; lia).
      destruct Hr as [Hr|Hr]; [left|right];
        rewrite Hr at 1; rewrite inject_Z_plus, inject_Z_mult; field. }
    replace ((n + 2) / 3) with (q + 1)
      by (subst q; Z.to_euclidean_division_equations; lia).
    assert (He : (Qabs (rnd (inject_Z n / 3) - inject_Z n / 3) <= 1 # 4)%Q)
      by (apply Herr; destruct Hx as [Hx|Hx]; lra).
    apply Qabs_Qle_condition in He.
    apply Qceiling_unique.
    + replace (q + 1 - 1) with q by lia. destruct Hx as [Hx|Hx]; lra.
    + rewrite inject_Z_plus. change (inject_Z 1) with 1%Q.
      destruct Hx as [Hx|Hx]; lra.
Qed.

(** [Index_from] finds the first occurrence, counted from [k]. *)
Lemma Index_from_spec (v : ValidatorSet) (addr : Address) (k : Z) :
  ((addr ∉ v) ∧ Index_from v addr k = -1) ∨
  (∃ i : nat, v !! i = Some addr ∧
     (∀ j : nat, (j < i)%nat → v !! j ≠ Some addr) ∧
     Index_from v addr k = k + Z.of_nat i).
Proof.
  revert k. induction v as [|x v IH]; intros k; simpl.
  - left. split; [apply not_elem_of_nil | done].
  - destruct (decide (x = addr)) as [->|Hne].
    + right. exists 0%nat. split; [done|]. split; [lia|lia].
    + destruct (IH (k + 1)) as [[Hn He]|(i & Hi & Hlt & He)].
      * left. split; [|done]. rewrite not_elem_of_cons. auto.
      * right. exists (S i). split; [done|]. split; [|lia].
        intros [|j] Hj; simpl; [congruence|]. apply Hlt. lia.
Qed.

Lemma Index_first (v : ValidatorSet) (addr : Address) (i : nat) :
  v !! i = Some addr → (∀ j : nat, (j < i)%nat → v !! j ≠ Some addr) →
  Index v addr = Z.of_nat i.
Proof.
  intros Hi Hlt. unfold Index.
  destruct (Index_from_spec v addr 0) as [[Hn _]|(i' & Hi' & Hlt' & ->)].
  - exfalso. apply Hn. by eapply list_elem_of_lookup_2.
  - destruct (Nat.lt_trichotomy i i') as [?|[->|?]]; [|lia|].
    + by destruct (Hlt' i).
    + by destruct (Hlt i').
Qed.

Lemma Index_absent (v : ValidatorSet) (addr : Address) :
  addr ∉ v → Index v addr = -1.
Proof.
  intros Hn. unfold Index.
  destruct (Index_from_spec v addr 0) as [[_ ?]|(i & Hi & _)]; [done|].
  exfalso. apply Hn. by eapply list_elem_of_lookup_2.
Qed.

Lemma Includes_elem_of (v : ValidatorSet) (addr : Address) :
  Includes v addr = true ↔ addr ∈ v.
Proof.
  unfold Includes, Index.
  destruct (Index_from_spec v addr 0) as [[Hn ->]|(i & Hi & _ & ->)].
  - simpl. split; [done|]. intros; contradiction.
  - split; [intros _; by eapply list_elem_of_lookup_2|intros _].
    apply negb_true_iff, Z.eqb_neq. lia.
Qed.

Lemma Includes_false (v : ValidatorSet) (addr : Address) :
  Includes v addr = false ↔ addr ∉ v.
Proof.
  rewrite <- Includes_elem_of. destruct (Includes v addr); split; done.
Qed.

Lemma CalcProposer_pick (v : ValidatorSet) (seed : Z) :
  v ≠ [] → Len v < 2 ^ 63 → 0 <= seed →
  ∃ a, v !! Z.to_nat (seed `mod` uint64 (Len v)) = Some a ∧ a ∈ v.
Proof.
  intros Hv Hlen Hseed.
  assert (0 < Len v) by (unfold Len; destruct v; [done|simpl; lia]).
  rewrite uint64_small by lia.
  destruct (lookup_lt_is_Some_2 v (Z.to_nat (seed `mod` Len v))) as [a Ha].
  - pose proof (Z.mod_pos_bound seed (Len v)). unfold Len in *. lia.
  - exists a. split; [done|]. by eapply list_elem_of_lookup_2.
Qed.

(** C1, as amended. For every non-empty validator set [v] (of a length that a
    Go slice can have), every [uint64] round and every [lastProposer],
    [CalcProposer] returns [v[seed mod n]], where the seed is the round when
    [lastProposer] is the zero address and otherwise index + round + 1 reduced
    modulo 2^64, the index being the position of [lastProposer] in [v] and 0
    when it is not in [v]. The result is an address of [v]; being a Rocq
    function of its three inputs, it depends on nothing else. With four
    addresses A, B, C, D and the zero address as last proposer, round 0 gives
    A, round 1 gives B and round 4 gives A. *)
Theorem CalcProposer_rotation (v : ValidatorSet) (round : Z)
    (lastProposer : Address) :
  v ≠ [] → Len v < 2 ^ 63 → 0 <= round < 2 ^ 64 →
  (lastProposer = ZeroAddress →
     CalcProposer v round lastProposer = v !! Z.to_nat (round `mod` Len v)) ∧
  (lastProposer ≠ ZeroAddress →
     ∀ i : nat, v !! i = Some lastProposer →
       (∀ j : nat, (j < i)%nat → v !! j ≠ Some lastProposer) →
       CalcProposer v round lastProposer
       = v !! Z.to_nat (((Z.of_nat i + round + 1) `mod` 2 ^ 64) `mod` Len v)) ∧
  (lastProposer ≠ ZeroAddress → (lastProposer ∉ v) →
     CalcProposer v round lastProposer
     = v !! Z.to_nat (((0 + round + 1) `mod` 2 ^ 64) `mod` Len v)) ∧
  (∃ a, CalcProposer v round lastProposer = Some a ∧ a ∈ v) ∧
  (∀ A B C D : Address,
     CalcProposer [A; B; C; D] 0 ZeroAddress = Some A ∧
     CalcProposer [A; B; C; D] 1 ZeroAddress = Some B ∧
     CalcProposer [A; B; C; D] 4 ZeroAddress = Some A).
Proof.
  intros Hv Hlen Hround.
  assert (Hpos : 0 < Len v) by (unfold Len; destruct v; [done|simpl; lia]).
  assert (Hn : uint64 (Len v) = Len v) by (apply uint64_small; lia).
  assert (Hgo : ∀ seed,
    CalcProposer_from v seed = v !! Z.to_nat (seed `mod` Len v)).
  { intros seed. unfold CalcProposer_from. rewrite Hn.
    destruct (decide (Len v = 0)); [lia|done]. }
  repeat split.
  - intros ->. unfold CalcProposer. rewrite Hgo.
    by destruct (decide (ZeroAddress = ZeroAddress)).
  - intros Hnz i Hi Hfirst. unfold CalcProposer. rewrite Hgo.
    destruct (decide (lastProposer = ZeroAddress)); [done|].
    rewrite (Index_first v lastProposer i Hi Hfirst).
    destruct (decide (Z.of_nat i ≠ -1)); [|lia].
    by rewrite uint64_add3.
  - intros Hnz Hout. unfold CalcProposer. rewrite Hgo.
    destruct (decide (lastProposer = ZeroAddress)); [done|].
    rewrite (Index_absent v lastProposer Hout).
    destruct (decide (-1 ≠ -1)); [done|].
    by rewrite uint64_add3.
  - unfold CalcProposer. rewrite Hgo, <- Hn.
    apply CalcProposer_pick; [done..|].
    destruct (decide (lastProposer = ZeroAddress)); [lia|].
    unfold uint64. apply Z.mod_pos_bound. lia.
Qed.

Lemma CalcProposer_rotation_witness :
  ∃ a, CalcProposer [10; 20; 30; 40]%N 6 20%N = Some a ∧
       a ∈ [10; 20; 30; 40]%N.
Proof.
  apply (CalcProposer_rotation [10; 20; 30; 40]%N 6 20%N);
    [discriminate | reflexivity | lia].
Defined.

(** C1 as first stated fails twice. On the empty set the remainder by the
    length panics and no address is returned. And the seed wraps: with three
    validators, round 2^64 - 1 and the first validator as last proposer the
    code picks index 0, where index + round + 1 = 2^64 leaves remainder 1. *)
Lemma CalcProposer_counterexample :
  CalcProposer [] 0 ZeroAddress = None ∧
  CalcProposer [10; 20; 30]%N (2 ^ 64 - 1) 10%N = Some 10%N ∧
  [10; 20; 30]%N
    !! Z.to_nat ((Index [10; 20; 30]%N 10%N + (2 ^ 64 - 1) + 1) `mod` 3)
  = Some 20%N.
Proof. vm_compute. done. Qed.

(** C5. For a validator set of length n >= 1, [MinFaultyNodes] is the
    ceiling of n/3 less one: the integer f with 3f < n <= 3(f+1), which is 0
    for n = 1, 2, 3 and 1 for n = 4, 5, 6. [NumValid] is twice that, so
    [NumValid + 1] is 2f + 1. *)
Theorem MinFaultyNodes_quorum (v : ValidatorSet) :
  1 <= Len v →
  MinFaultyNodes v = (Len v + 2) / 3 - 1 ∧
  3 * MinFaultyNodes v < Len v <= 3 * (MinFaultyNodes v + 1) ∧
  (Len v = 1 ∨ Len v = 2 ∨ Len v = 3 → MinFaultyNodes v = 0) ∧
  (Len v = 4 ∨ Len v = 5 ∨ Len v = 6 → MinFaultyNodes v = 1) ∧
  (∀ c : currentState,
     NumValid c = 2 * MinFaultyNodes (validators c) ∧
     NumValid c + 1 = 2 * MinFaultyNodes (validators c) + 1).
Proof.
  intros Hlen. rewrite !MinFaultyNodes_div.
  repeat split; try (Z.to_euclidean_division_equations; lia).
Qed.

Lemma MinFaultyNodes_quorum_witness :
  MinFaultyNodes [10; 20; 30; 40]%N = (Len [10; 20; 30; 40]%N + 2) / 3 - 1.
Proof.
  refine (proj1 (MinFaultyNodes_quorum [10; 20; 30; 40]%N _)).
  unfold Len. simpl. lia.
Defined.

Lemma Equal_loop_refl (v : ValidatorSet) : Equal_loop v v = true.
Proof.
  induction v as [|i v IH]; simpl; [done|]. by destruct (decide (i ≠ i)).
Qed.

Lemma Equal_loop_sym (v w : ValidatorSet) : Equal_loop v w = Equal_loop w v.
Proof.
  revert w. induction v as [|i v IH]; intros [|j w]; simpl; try done.
  destruct (decide (i ≠ j)) as [Hij|Hij], (decide (j ≠ i)) as [Hji|Hji];
    [done | | | apply IH].
  - exfalso. apply Hji. intros ->. by apply Hij.
  - exfalso. apply Hij. intros ->. by apply Hji.
Qed.

Lemma Equal_refl (v : ValidatorSet) : Equal v v = true.
Proof.
  unfold Equal. destruct (decide (Len v ≠ Len v)); [done|apply Equal_loop_refl].
Qed.

Lemma Equal_sym (v w : ValidatorSet) : Equal v w = Equal w v.
Proof.
  unfold Equal.
  destruct (decide (Len v ≠ Len w)), (decide (Len w ≠ Len v));
    [done | lia | lia | apply Equal_loop_sym].
Qed.

(** One iteration of the loop of [Del], unfolded. *)
Lemma Del_loop_S (addr : Address) (n indx : nat) (backing : list Address)
    (len : nat) :
  Del_loop addr (S n) indx backing len =
  match backing !! indx with
  | None => None
  | Some i =>
      if decide (i = addr) then
        if decide (indx + 1 <= len)%nat then
          Del_loop addr n (S indx)
            (take indx backing ++ drop (indx + 1) (take len backing)
               ++ drop (len - 1) backing) (len - 1)
        else None
      else Del_loop addr n (S indx) backing len
  end.
Proof. reflexivity. Qed.

(** When the only occurrence of [addr] is the last cell, the loop walks over
    [suf] untouched and then cuts the last cell off. *)
Lemma Del_loop_last (addr : Address) (suf pre : list Address) (len : nat) :
  addr ∉ suf → len = (length pre + length suf + 1)%nat →
  Del_loop addr (S (length suf)) (length pre) (pre ++ suf ++ [addr]) len
  = Some (pre ++ suf ++ [addr], (len - 1)%nat).
Proof.
  revert pre. induction suf as [|x suf IH]; intros pre Hout Hlen.
  - rewrite Del_loop_S. cbn [Del_loop length app].
    rewrite lookup_app_r by lia. rewrite Nat.sub_diag. cbn [lookup list_lookup].
    destruct (decide (addr = addr)); [|done].
    destruct (decide (length pre + 1 <= len)%nat); [|simpl in Hlen; lia].
    f_equal. f_equal.
    assert (len = length (pre ++ [addr])) as ->
      by (rewrite length_app; simpl in *; lia).
    rewrite firstn_all, take_app_length.
    rewrite drop_ge by (rewrite length_app; simpl; lia).
    rewrite length_app. cbn [length].
    replace (length pre + 1 - 1)%nat with (length pre) by lia.
    by rewrite drop_app_length.
  - apply not_elem_of_cons in Hout as [Hne Hout].
    cbn [length]. rewrite Del_loop_S.
    rewrite lookup_app_r by lia. rewrite Nat.sub_diag.
    cbn [lookup list_lookup app].
    destruct (decide (x = addr)); [done|].
    specialize (IH (pre ++ [x]) Hout).
    rewrite length_app in IH. cbn [length] in IH.
    replace (length pre + 1)%nat with (S (length pre)) in IH by lia.
    rewrite <- (assoc_L (++) pre [x]) in IH.
    apply IH. simpl in Hlen. lia.
Qed.

Lemma Del_Add (v : ValidatorSet) (addr : Address) :
  addr ∉ v → Del (Add v addr) addr = Some v.
Proof.
  intros Hout. unfold Del, Add.
  rewrite length_app. cbn [length]. rewrite Nat.add_1_r.
  pose proof (Del_loop_last addr v [] (S (length v)) Hout) as Hloop.
  cbn [app length] in Hloop. rewrite Hloop by lia.
  replace (S (length v) - 1)%nat with (length v) by lia.
  by rewrite take_app_length.
Qed.

(** On a set without repetition [Del] removes the address and keeps the order
    of the others. With repetitions the loop, which walks the original length
    over the array it is shifting, skips the cell that moved under its index
    or panics on a stale one. *)
Example Del_examples :
  Del [10; 20; 30]%N 20%N = Some [10; 30]%N ∧
  Del [10; 20; 30]%N 40%N = Some [10; 20; 30]%N ∧
  Del [30; 10; 10; 40]%N 10%N = Some [30; 10; 40]%N ∧
  Del [10; 20; 10]%N 10%N = None.
Proof. repeat split; reflexivity. Qed.

(** C9. [Equal] is reflexive and symmetric, and adding an address that is
    not in the set and deleting it again returns normally with a set that is
    [Equal] to the original one (it is the original list, in its order). *)
Theorem Equal_equivalence_Add_Del (v w : ValidatorSet) (a : Address) :
  Equal v v = true ∧
  Equal v w = Equal w v ∧
  ((a ∉ v) →
     ∃ v', Del (Add v a) a = Some v' ∧ Equal v' v = true ∧ v' = v).
Proof.
  split; [apply Equal_refl|]. split; [apply Equal_sym|].
  intros Hout. exists v.
  split; [by apply Del_Add|]. split; [apply Equal_refl|done].
Qed.

Lemma Equal_equivalence_Add_Del_witness :
  ∃ v', Del (Add [10; 20; 30]%N 40%N) 40%N = Some v' ∧
        Equal v' [10; 20; 30]%N = true ∧ v' = [10; 20; 30]%N.
Proof.
  apply (Equal_equivalence_Add_Del [10; 20; 30]%N [] 40%N).
  intros H.
  by repeat (apply elem_of_cons in H as [H|H]; [discriminate|]);
    apply elem_of_nil in H.
Defined.

End validator_set.

(** ** The round state *)

Section round_state.
Import machine types ibft.

Lemma qualifies_insert (num : Z) (rounds : gmap Z (gmap Address MessageReq))
    (i : Z) (x : gmap Address MessageReq) (k : Z) :
  rounds !! i = None →
  qualifies num (<[i := x]> rounds) k ↔
  (k = i ∧ num <= Z.of_nat (size x)) ∨ qualifies num rounds k.
Proof.
  intros Hi. unfold qualifies. split.
  - intros (round & Hl & Hs). destruct (decide (i = k)) as [->|Hne].
    + rewrite lookup_insert_eq in Hl. left. naive_solver.
    + rewrite lookup_insert_ne in Hl by done. right. eauto.
  - intros [[-> Hs]|(round & Hl & Hs)].
    + exists x. by rewrite lookup_insert_eq.
    + exists round. rewrite lookup_insert_ne; [done|]. intros ->. congruence.
Qed.

(** What the loop of [maxRound] computes, whatever the order in which the map
    is walked: the flag is set exactly when a round above 0 qualifies, the
    round is then the greatest qualifying one, and it is 0 otherwise. *)
Lemma maxRound_fold_spec (num : Z) (rounds : gmap Z (gmap Address MessageReq)) :
  let r := map_fold (maxRound_step num) (0, false) rounds in
  0 <= r.1 ∧
  (r.2 = true ↔ ∃ k, qualifies num rounds k ∧ 0 < k) ∧
  (r.2 = true →
     qualifies num rounds r.1 ∧ ∀ k, qualifies num rounds k → k <= r.1) ∧
  (r.2 = false → r.1 = 0).
Proof.
  cbv zeta.
  apply (map_fold_weak_ind (λ (r : Z * bool) m,
    0 <= r.1 ∧
    (r.2 = true ↔ ∃ k, qualifies num m k ∧ 0 < k) ∧
    (r.2 = true → qualifies num m r.1 ∧ ∀ k, qualifies num m k → k <= r.1) ∧
    (r.2 = false → r.1 = 0))).
  - simpl. split; [lia|]. split; [|done]. split; [done|].
    intros (k & (round & Hl & _) & _). by rewrite lookup_empty in Hl.
  - intros i x m [mr found] Hi (Hpos & Hfound & Hmax & Hzero). simpl in *.
    pose proof (λ k, qualifies_insert num m i x k Hi) as Hins.
    unfold maxRound_step. simpl.
    destruct (decide (Z.of_nat (size x) < num)) as [Hsmall|Hbig]; simpl.
    + split; [done|]. split; [|split; [|done]].
      * rewrite Hfound.
        split; intros (k & Hq & Hk); exists k; (split; [|done]).
        -- apply Hins; auto.
        -- apply Hins in Hq as [[_ ?]|?]; [lia|done].
      * intros Ht. destruct (Hmax Ht) as [Hq Hle]. split.
        -- apply Hins; auto.
        -- intros k Hk. apply Hins in Hk as [[_ ?]|?]; [lia|]. by apply Hle.
    + destruct (decide (mr < i)) as [Hlt|Hge]; simpl.
      * split; [lia|]. split; [|split; [|done]].
        -- split; [intros _|done]. exists i. split; [|lia].
           apply Hins. left. split; [done|lia].
        -- intros _. split.
           ++ apply Hins. left. split; [done|lia].
           ++ intros k Hk. apply Hins in Hk as [[-> _]|Hk]; [lia|].
              destruct found.
              ** destruct (Hmax eq_refl) as [_ Hle]. specialize (Hle k Hk). lia.
              ** destruct (decide (0 < k)) as [Hk0|Hk0]; [|lia].
                 assert (false = true) by (apply Hfound; eauto). done.
      * split; [done|]. split; [|split; [|done]].
        -- rewrite Hfound. split; intros (k & Hq & Hk).
           ++ exists k. split; [|done]. apply Hins; auto.
           ++ apply Hins in Hq as [[-> _]|Hq]; [|by eauto].
              destruct found; [|rewrite Hzero in Hge by done; lia].
              destruct (Hmax eq_refl) as [Hq _]. exists mr. split; [done|lia].
        -- intros Ht. destruct (Hmax Ht) as [Hq Hle]. split.
           ++ apply Hins; auto.
           ++ intros k Hk. apply Hins in Hk as [[-> _]|Hk]; [lia|].
              by apply Hle.
Qed.

Lemma maxRound_found_iff (c : currentState) :
  (maxRound c).2 = true ↔
  ∃ k, qualifies (MinFaultyNodes (validators c) + 1) (roundMessages c) k ∧ 0 < k.
Proof. apply maxRound_fold_spec. Qed.

(** C4, on the code as it stands. After the single validator of a one-node
    set has sent its round-change message for round 0, f is 0, round 0 holds
    one message, which is f + 1, and yet [maxRound] answers [(0, false)]: the
    comparison [maxRound < k] never fires for k = 0. *)
Theorem maxRound_round_zero_not_found :
  MinFaultyNodes (validators sample.round_zero_state) = 0 ∧
  numRounds sample.round_zero_state 0 = 1 ∧
  qualifies (MinFaultyNodes (validators sample.round_zero_state) + 1)
    (roundMessages sample.round_zero_state) 0 ∧
  maxRound sample.round_zero_state = (0, false).
Proof.
  split; [reflexivity|]. split; [reflexivity|]. split; [|reflexivity].
  eexists. split; [reflexivity|]. vm_compute. discriminate.
Qed.

Lemma filter_absent_key {A B} (P : A * B → Prop) `{!∀ e, Decision (P e)}
    (k : A) (l : list (A * B)) :
  (∀ e, e ∈ l → P e → e.1 = k) → (k ∉ l.*1) → filter P l = [].
Proof.
  intros Hkey Hout. induction l as [|e l IH]; [done|].
  rewrite filter_cons. destruct (decide (P e)) as [HP|HP].
  - exfalso. apply Hout. rewrite fmap_cons.
    rewrite <- (Hkey e); [left|left|done].
  - apply IH.
    + intros e' He'. apply Hkey. by right.
    + rewrite fmap_cons in Hout. by apply not_elem_of_cons in Hout as [_ ?].
Qed.

Lemma filter_unique_key {A B} (P : A * B → Prop) `{!∀ e, Decision (P e)}
    (k : A) (l : list (A * B)) :
  NoDup l.*1 → (∀ e, e ∈ l → P e → e.1 = k) →
  (length (filter P l) <= 1)%nat.
Proof.
  induction l as [|e l IH]; intros Hnd Hkey; [simpl; lia|].
  rewrite fmap_cons in Hnd. apply NoDup_cons in Hnd as [Hout Hnd].
  rewrite filter_cons. destruct (decide (P e)) as [HP|HP].
  - rewrite (filter_absent_key P k l); [simpl; lia| |].
    + intros e' He'. apply Hkey. by right.
    + rewrite <- (Hkey e); [done|left|done].
  - apply IH; [done|]. intros e' He'. apply Hkey. by right.
Qed.

Lemma bucket_ok_inv (v : ValidatorSet) (m : gmap Address MessageReq) :
  bucket_ok v m ↔ bucket_inv v m.
Proof.
  split.
  - intros Hok. split; [|split].
    + intros sender. apply (filter_unique_key _ sender).
      * apply NoDup_fst_map_to_list.
      * intros [a msg] He Hs. simpl in *.
        apply elem_of_map_to_list in He. by destruct (Hok a msg He) as [<- _].
    + intros a [msg Ha]. by destruct (Hok a msg Ha).
    + intros a msg Ha. by destruct (Hok a msg Ha).
  - intros (_ & Hdom & Hkey) a msg Ha. split; [by apply Hkey|].
    apply Hdom. eauto.
Qed.

Lemma bucket_ok_empty (v : ValidatorSet) : bucket_ok v ∅.
Proof. intros a msg Ha. by rewrite lookup_empty in Ha. Qed.

Lemma bucket_ok_insert (v : ValidatorSet) (m : gmap Address MessageReq)
    (msg : MessageReq) :
  bucket_ok v m → Includes v (FromAddr msg) = true →
  bucket_ok v (<[FromAddr msg := msg]> m).
Proof.
  intros Hok Hin a msg' Ha. destruct (decide (FromAddr msg = a)) as [<-|Hne].
  - rewrite lookup_insert_eq in Ha. injection Ha as <-.
    split; [done|]. by apply Includes_elem_of.
  - rewrite lookup_insert_ne in Ha by done. by apply Hok.
Qed.

Lemma state_ok_inv (c : currentState) : state_ok c ↔ state_inv c.
Proof.
  unfold state_ok, state_inv. rewrite !bucket_ok_inv.
  split; intros (? & ? & Hr); (split; [done|split; [done|]]);
    intros r m Hm; apply bucket_ok_inv; by eapply Hr.
Qed.

Lemma addMessage_state_ok (c : currentState) (msg : MessageReq) :
  state_ok c → state_ok (addMessage c msg).
Proof.
  intros (Hp & Hc & Hr). unfold addMessage.
  destruct (Includes (validators c) (FromAddr msg)) eqn:Hin; simpl; [|done].
  destruct (MsgType msg); simpl.
  - done.
  - split; [by apply bucket_ok_insert|done].
  - split; [done|]. split; [by apply bucket_ok_insert|done].
  - split; [done|]. split; [done|]. simpl. intros r m.
    set (round := Round (MsgView msg)).
    destruct (decide (round = r)) as [<-|Hne].
    + rewrite lookup_insert_eq. intros [= <-]. apply bucket_ok_insert; [|done].
      destruct (roundMessages c !! round) as [old|] eqn:Hold.
      * rewrite Hold. simpl. by eapply Hr.
      * rewrite lookup_insert_eq. simpl. apply bucket_ok_empty.
    + rewrite lookup_insert_ne by done.
      destruct (roundMessages c !! round) as [old|] eqn:Hold.
      * apply Hr.
      * rewrite lookup_insert_ne by done. apply Hr.
Qed.

Lemma addMessage_non_validator (c : currentState) (msg : MessageReq) :
  Includes (validators c) (FromAddr msg) = false → addMessage c msg = c.
Proof. intros Hout. unfold addMessage. by rewrite Hout. Qed.

(** The invariant holds of every state whose message stores were just reset. *)
Lemma resetRoundMsgs_state_inv (c : currentState) : state_inv (resetRoundMsgs c).
Proof.
  apply state_ok_inv.
  split; [apply bucket_ok_empty|]. split; [apply bucket_ok_empty|].
  intros r m Hm. simpl in Hm. by rewrite lookup_empty in Hm.
Qed.

(** C6. [addMessage] and its wrappers [addPrepared], [addCommitted] and
    [AddRoundMessage] preserve the invariant of the message stores: in the
    prepared map, in the committed map and in the map of every round there is
    at most one entry per sender, and no entry is keyed by an address outside
    the validator set. A message whose sender is not a validator leaves the
    state, and so all three stores, as it was. *)
Theorem addMessage_preserves_state_inv (c : currentState) (msg : MessageReq) :
  state_inv c →
  state_inv (addMessage c msg) ∧
  state_inv (addPrepared c msg) ∧
  state_inv (addCommitted c msg) ∧
  state_inv (AddRoundMessage c msg).1 ∧
  ((FromAddr msg ∉ validators c) →
     addMessage c msg = c ∧ addPrepared c msg = c ∧ addCommitted c msg = c ∧
     (AddRoundMessage c msg).1 = c).
Proof.
  intros Hinv.
  assert (Hadd : state_inv (addMessage c msg))
    by (apply state_ok_inv, addMessage_state_ok, state_ok_inv, Hinv).
  split; [done|]. unfold addPrepared, addCommitted, AddRoundMessage.
  split; [by case_decide|]. split; [by case_decide|]. split; [by case_decide|].
  intros Hout. apply Includes_false in Hout.
  rewrite (addMessage_non_validator c msg Hout).
  repeat split; by case_decide.
Qed.

Lemma addMessage_preserves_state_inv_witness :
  state_inv (addMessage (sample.fresh [10; 20; 30; 40]%N)
               (mkMessageReq MessageReq_Commit 20%N (mkView 0 1) [])).
Proof.
  refine (proj1 (addMessage_preserves_state_inv _ _ _)).
  apply resetRoundMsgs_state_inv.
Defined.

End round_state.

(** ** The sync service *)

Section service_properties.
Import machine types protocol.
Context {Body Receipt : Type}.
Context `{!rlpObject Header, !rlpObject Body, !rlpObject (list Receipt)}.
Variable DecodeHashes : HashRequest → error + list Hash.
Variable UnmarshalText : string → error + Hash.

Lemma int64_small (z : Z) : - 2 ^ 63 <= z < 2 ^ 63 → int64 z = z.
Proof. unfold int64. intros. Z.to_euclidean_division_equations. lia. Qed.

Lemma int64_high (z : Z) : 2 ^ 63 <= z < 2 ^ 64 → int64 z < 0.
Proof. unfold int64. intros. Z.to_euclidean_division_equations. lia. Qed.

(** A number of [uint64] that reads as [m] in [int64] is [m] itself when
    [m] is not negative, and [2^64 + m] when it is. *)
Lemma int64_of_uint64 (n : Z) : is_int64 n → int64 (uint64 n) = n.
Proof.
  unfold is_int64, int64, uint64. intros.
  Z.to_euclidean_division_equations. lia.
Qed.

Lemma uint64_range (z : Z) : 0 <= uint64 z < 2 ^ 64.
Proof. unfold uint64. apply Z.mod_pos_bound. lia. Qed.

(** The height asked for next, from a header whose number reads as [m] in
    [int64]: the conversion of the step and the wrapped sum come to the plain
    sum, unless it leaves the signed range, and then the computed value is
    negative. *)
Lemma next_block (m sk : Z) :
  - 2 ^ 63 <= m < 2 ^ 63 → 0 <= sk < 2 ^ 63 →
  int64 (m + int64 (sk + 1)) = int64 (m + (sk + 1)) ∧
  (0 <= int64 (m + (sk + 1)) →
     int64 (m + (sk + 1)) = m + (sk + 1) ∧ 0 <= m + (sk + 1) < 2 ^ 63).
Proof.
  intros Hm Hsk. split.
  - unfold int64. Z.to_euclidean_division_equations. lia.
  - intros Hb. destruct (decide (m + (sk + 1) < 2 ^ 63)) as [Hlt|Hge].
    + rewrite int64_small in Hb |- * by lia. lia.
    + pose proof (int64_high (m + (sk + 1))). lia.
Qed.

(** The loop of [GetHeaders], started from a header whose number reads as
    [m] in [int64]: it appends the headers found at [m + step],
    [m + 2 step], ..., all of them heights below 2^63, and stops after [todo]
    of them, or at the first height that is negative as computed or missing. *)
Lemma GetHeaders_loop_spec (s : blockchainShim Body Receipt) (sk : Z)
    (todo : nat) :
  store_wf s → 0 <= sk < 2 ^ 63 →
  ∀ (origin : Header) (objs : list Response_Component) (m : Z),
    int64 (Number origin) = m → - 2 ^ 63 <= m < 2 ^ 63 →
    ∃ hs : list Header,
      GetHeaders_loop s (int64 (sk + 1)) todo origin objs
      = objs ++ (addData <$> hs) ∧
      (length hs <= todo)%nat ∧
      (∀ (i : nat) h, hs !! i = Some h →
         0 <= m + (Z.of_nat i + 1) * (sk + 1) < 2 ^ 63 ∧
         GetHeaderByNumber s (m + (Z.of_nat i + 1) * (sk + 1)) = Some h ∧
         Number h = m + (Z.of_nat i + 1) * (sk + 1)) ∧
      ((length hs < todo)%nat →
         int64 (m + (Z.of_nat (length hs) + 1) * (sk + 1)) < 0 ∨
         GetHeaderByNumber s (m + (Z.of_nat (length hs) + 1) * (sk + 1)) = None).
Proof.
  intros Hwf Hsk. induction todo as [|todo IH]; intros origin objs m Hnum Hm.
  - loop_stops. lia.
  - cbn [GetHeaders_loop]. rewrite Hnum.
    destruct (next_block m sk Hm Hsk) as [-> Hnext].
    destruct (decide (int64 (m + (sk + 1)) < 0)) as [Hneg|Hpos].
    + loop_stops. intros _. left. by rewrite Z.mul_1_l.
    + destruct Hnext as [Hb Hlt]; [lia|]. rewrite Hb.
      rewrite uint64_small by lia.
      destruct (GetHeaderByNumber s (m + (sk + 1))) as [h|] eqn:Hget.
      * assert (Hh : Number h = m + (sk + 1)) by (apply Hwf; [lia|done]).
        destruct (IH h (objs ++ [addData h]) (m + (sk + 1))) as
          (hs & Heq & Hlen & Hnth & Hstop);
          [rewrite Hh; apply int64_small; lia|lia|].
        exists (h :: hs). rewrite Heq. rewrite <- (assoc_L (++)). simpl.
        split; [done|]. split; [lia|]. split.
        -- intros [|i] h' Hi; simpl in Hi.
           ++ injection Hi as <-. simpl. rewrite Z.mul_1_l. done.
           ++ replace (m + (Z.of_nat (S i) + 1) * (sk + 1))
                with (m + (sk + 1) + (Z.of_nat i + 1) * (sk + 1)) by lia.
              by apply Hnth.
        -- intros Hl.
           replace (m + (Z.of_nat (S (length hs)) + 1) * (sk + 1))
             with (m + (sk + 1) + (Z.of_nat (length hs) + 1) * (sk + 1)) by lia.
           apply Hstop. lia.
      * loop_stops. intros _. right. by rewrite Z.mul_1_l.
Qed.

(** C2, as amended. Take a store that files each header under its own
    number, and a request by number n, not 0, with an empty hash, an amount a
    of at least 1 and a skip s >= 0. Then the call succeeds; the amount counts
    up to 190 at most; the origin is looked up at [uint64 n], which is n for a
    positive n and 2^64 + n for a negative one; the i-th header returned
    (from 0) is the store's header at height n + i (s + 1) and bears that
    number, except that for a negative n the origin, at i = 0, is the store's
    header at height 2^64 + n; no more headers are returned than the clamped
    amount; the headers stop short of it only at the first height that is
    missing from the store or negative as the code computes it in [int64];
    and when the origin is missing the response is empty. *)
Theorem GetHeaders_by_number (s : blockchainShim Body Receipt)
    (req : GetHeadersRequest) :
  store_wf s →
  GH_Number req ≠ 0 → is_int64 (GH_Number req) → GH_Hash req = EmptyString →
  1 <= GH_Amount req → 0 <= GH_Skip req < 2 ^ 63 →
  let n := GH_Number req in
  let step := GH_Skip req + 1 in
  let amount := Z.min (GH_Amount req) maxHeadersAmount in
  ∃ hs : list Header,
    GetHeaders UnmarshalText s req = inr (mkResponse (addData <$> hs)) ∧
    Z.of_nat (length hs) <= amount <= 190 ∧
    (uint64 n = if decide (0 < n) then n else 2 ^ 64 + n) ∧
    (∀ (i : nat) h, hs !! i = Some h → 0 < n ∨ (0 < i)%nat →
       0 <= n + Z.of_nat i * step < 2 ^ 63 ∧
       GetHeaderByNumber s (n + Z.of_nat i * step) = Some h ∧
       Number h = n + Z.of_nat i * step) ∧
    (∀ h, hs !! 0%nat = Some h → n < 0 →
       GetHeaderByNumber s (2 ^ 64 + n) = Some h ∧ Number h = 2 ^ 64 + n) ∧
    (GetHeaderByNumber s (uint64 n) = None → hs = []) ∧
    (is_Some (GetHeaderByNumber s (uint64 n)) →
       hs ≠ [] ∧
       (Z.of_nat (length hs) < amount →
          int64 (n + Z.of_nat (length hs) * step) < 0 ∨
          GetHeaderByNumber s (n + Z.of_nat (length hs) * step) = None)).
Proof.
  intros Hwf Hn Hn64 Hhash Ha Hsk n step amount.
  unfold GetHeaders. rewrite Hhash.
  destruct (decide (GH_Number req ≠ 0 ∧ EmptyString ≠ EmptyString))
    as [[_ ?]|_]; [done|].
  destruct (decide (GH_Number req ≠ 0)) as [_|?]; [|done].
  assert (Hamount :
    (if decide (GH_Amount req > maxHeadersAmount) then maxHeadersAmount
     else GH_Amount req) = amount).
  { subst amount. unfold maxHeadersAmount. case_decide; lia. }
  rewrite Hamount. fold n in Hn, Hn64 |- *.
  assert (Hle : amount <= 190) by (subst amount; unfold maxHeadersAmount; lia).
  assert (1 <= amount) by (subst amount; unfold maxHeadersAmount; lia).
  assert (Hu : uint64 n = if decide (0 < n) then n else 2 ^ 64 + n).
  { unfold is_int64 in Hn64. unfold uint64.
    destruct (decide (0 < n)).
    - apply Z.mod_small. lia.
    - Z.to_euclidean_division_equations. lia. }
  assert (Hrange : - 2 ^ 63 <= n < 2 ^ 63) by (unfold is_int64 in Hn64; lia).
  destruct (GetHeaderByNumber s (uint64 n)) as [origin|] eqn:Horigin.
  - assert (Hnum : Number origin = uint64 n)
      by (apply Hwf; [apply uint64_range|done]).
    destruct (GetHeaders_loop_spec s (GH_Skip req) (Z.to_nat (amount - 1))
                Hwf Hsk origin [addData origin] n)
      as (hs & Heq & Hlen & Hnth & Hstop);
      [by rewrite Hnum, int64_of_uint64|done|].
    exists (origin :: hs). rewrite Heq. split; [done|].
    split; [simpl length; lia|]. split; [done|].
    split; [|split; [|split; [done|]]].
    + intros [|i] h Hi Hcase; simpl in Hi.
      * injection Hi as <-. destruct Hcase as [Hpos|?]; [|lia].
        rewrite Z.mul_0_l, Z.add_0_r.
        rewrite decide_True in Hu by done. rewrite Hu in Horigin, Hnum.
        split; [lia|done].
      * replace (Z.of_nat (S i)) with (Z.of_nat i + 1) by lia. by apply Hnth.
    + intros h [= <-] Hneg. rewrite decide_False in Hu by lia.
      by rewrite Hu in Horigin, Hnum.
    + intros _. split; [done|]. intros Hlt. simpl length in *.
      replace (Z.of_nat (S (length hs))) with (Z.of_nat (length hs) + 1) by lia.
      apply Hstop. lia.
  - exists []. split; [done|]. split; [simpl; lia|]. split; [done|].
    split; [by intros i h Hi|]. split; [by intros h Hi|].
    split; [done|]. by intros [? ?].
Qed.

(** C7. A request with a number other than 0 and a hash text that is not
    empty is answered by the error, whatever the store holds: neither look-up
    is made and no header is returned. *)
Theorem GetHeaders_number_and_hash (s : blockchainShim Body Receipt)
    (req : GetHeadersRequest) :
  GH_Number req ≠ 0 → GH_Hash req ≠ EmptyString →
  GetHeaders UnmarshalText s req = inl "cannot have both"%string.
Proof.
  intros Hn Hh. unfold GetHeaders.
  by destruct (decide (GH_Number req ≠ 0 ∧ GH_Hash req ≠ EmptyString))
    as [_|[]].
Qed.



Lemma lookupObject_expected (s : blockchainShim Body Receipt)
    (ty : HashRequest_Type) (hash : Hash) (found : option object) :
  lookupObject s ty hash = inr found →
  expected_value s ty hash (objectData found).
Proof.
  unfold lookupObject, expected_value. destruct ty.
  - intros [= <-]. by destruct (GetBodyByHash s hash).
  - destruct (GetReceiptsByHash s hash) as [err|raw]; [done|].
    intros [= <-]. by exists raw.
  - by intros [= <-].
Qed.

(** A run of the loop that ends without error has appended one object per
    hash, in the order of the hashes. *)
Lemma GetObjectsByHash_loop_ok (s : blockchainShim Body Receipt)
    (ty : HashRequest_Type) (hashes : list Hash) :
  ∀ objs out,
    GetObjectsByHash_loop s ty hashes objs = inr out →
    ∃ new, out = objs ++ new ∧ length new = length hashes ∧
      ∀ (i : nat) hash, hashes !! i = Some hash →
        ∃ c, new !! i = Some c ∧ expected_value s ty hash (Value c).
Proof.
  induction hashes as [|hash rest IH]; intros objs out; simpl.
  - intros [= <-]. exists []. rewrite app_nil_r. split; [done|]. split; [done|].
    by intros i h Hi.
  - destruct (lookupObject s ty hash) as [err|found] eqn:Hlook; [done|].
    intros Hloop. destruct (IH _ _ Hloop) as (new & -> & Hlen & Hnth).
    exists (mkComponent (objectData found) :: new).
    rewrite <- (assoc_L (++)). split; [done|]. split; [simpl; lia|].
    intros [|i] h Hi; simpl in Hi.
    + injection Hi as <-. eexists. split; [done|]. simpl.
      by apply lookupObject_expected.
    + by apply Hnth.
Qed.

Lemma GetObjectsByHash_inr (s : blockchainShim Body Receipt)
    (req : HashRequest) (resp : Response) :
  GetObjectsByHash DecodeHashes s req = inr resp →
  ∃ hashes, DecodeHashes req = inr hashes ∧
    length (Objs resp) = length hashes ∧
    ∀ (i : nat) hash, hashes !! i = Some hash →
      ∃ c, Objs resp !! i = Some c ∧
           expected_value s (HR_Type req) hash (Value c).
Proof.
  unfold GetObjectsByHash.
  destruct (DecodeHashes req) as [err|hashes]; [done|].
  destruct (GetObjectsByHash_loop s (HR_Type req) hashes [])
    as [err|objs] eqn:Hloop; [done|].
  intros [= <-]. exists hashes. split; [done|].
  destruct (GetObjectsByHash_loop_ok _ _ _ _ _ Hloop) as (new & -> & Hlen & Hnth).
  by simpl.
Qed.

(** C3. When [GetObjectsByHash] returns without error, the request's hashes
    were decoded, the response has exactly one object per hash, in the order
    of the hashes, and the i-th object is the encoding of what the store holds
    for the i-th hash, or the empty byte sequence when it holds nothing (a
    body that is not found). *)
Theorem GetObjectsByHash_response (s : blockchainShim Body Receipt)
    (req : HashRequest) (resp : Response) :
  GetObjectsByHash DecodeHashes s req = inr resp →
  ∃ hashes, DecodeHashes req = inr hashes ∧
    length (Objs resp) = length hashes ∧
    ∀ (i : nat) hash, hashes !! i = Some hash →
      ∃ c, Objs resp !! i = Some c ∧
           expected_value s (HR_Type req) hash (Value c).
Proof. apply GetObjectsByHash_inr. Qed.

Lemma GetObjectsByHash_loop_bodies (s : blockchainShim Body Receipt)
    (hashes : list Hash) :
  ∀ objs, ∃ out,
    GetObjectsByHash_loop s HashRequest_BODIES hashes objs = inr out.
Proof.
  induction hashes as [|hash rest IH]; intros objs; simpl; [by eexists|].
  apply IH.
Qed.

(** With receipts, the loop leaves at the first hash whose look-up fails, with
    that look-up's error. *)
Lemma GetObjectsByHash_loop_receipts_error (s : blockchainShim Body Receipt)
    (hashes : list Hash) :
  ∀ objs (i : nat) hash err,
    hashes !! i = Some hash → GetReceiptsByHash s hash = inl err →
    ∃ (j : nat) hash' err',
      (j <= i)%nat ∧ hashes !! j = Some hash' ∧
      GetReceiptsByHash s hash' = inl err' ∧
      (∀ (k : nat) hk, (k < j)%nat → hashes !! k = Some hk →
         ∃ raw, GetReceiptsByHash s hk = inr raw) ∧
      GetObjectsByHash_loop s HashRequest_RECEIPTS hashes objs = inl err'.
Proof.
  induction hashes as [|h rest IH]; intros objs i hash err Hi Herr; [done|].
  simpl. destruct (GetReceiptsByHash s h) as [e|raw] eqn:Hh.
  - exists 0%nat, h, e. split; [lia|]. split; [done|]. split; [done|].
    split; [intros; lia|done].
  - destruct i as [|i]; simpl in Hi; [injection Hi as ->; congruence|].
    destruct (IH (objs ++ [mkComponent (objectData (Some (ObjReceipts raw)))])
                i hash err Hi Herr)
      as (j & h' & e' & Hj & Hl & He & Hbefore & Hres).
    exists (S j), h', e'. split; [lia|]. split; [done|]. split; [done|].
    split; [|done]. intros [|k] hk Hk Hlk; simpl in Hlk.
    + injection Hlk as <-. eauto.
    + apply (Hbefore k); [lia|done].
Qed.

(** C8. Once the hashes are decoded, the two kinds differ. For bodies the
    call always succeeds, with one object per hash, and a hash whose body is
    not found has the empty payload at its position. For receipts, as soon as
    the look-up of some hash fails the whole call fails: it returns the error
    of the first failing look-up and no response. *)
Theorem GetObjectsByHash_asymmetry (s : blockchainShim Body Receipt)
    (req : HashRequest) (hashes : list Hash) :
  DecodeHashes req = inr hashes →
  (HR_Type req = HashRequest_BODIES →
     ∃ resp, GetObjectsByHash DecodeHashes s req = inr resp ∧
       length (Objs resp) = length hashes ∧
       ∀ (i : nat) hash, hashes !! i = Some hash →
         GetBodyByHash s hash = None →
         Objs resp !! i = Some (mkComponent [])) ∧
  (HR_Type req = HashRequest_RECEIPTS →
     ∀ (i : nat) hash err,
       hashes !! i = Some hash → GetReceiptsByHash s hash = inl err →
       ∃ (j : nat) hash' err',
         (j <= i)%nat ∧ hashes !! j = Some hash' ∧
         GetReceiptsByHash s hash' = inl err' ∧
         (∀ (k : nat) hk, (k < j)%nat → hashes !! k = Some hk →
            ∃ raw, GetReceiptsByHash s hk = inr raw) ∧
         GetObjectsByHash DecodeHashes s req = inl err').
Proof.
  intros Hdecode. split.
  - intros Hty.
    destruct (GetObjectsByHash_loop_bodies s hashes []) as [out Hout].
    assert (Hcall : GetObjectsByHash DecodeHashes s req = inr (mkResponse out))
      by (unfold GetObjectsByHash; by rewrite Hdecode, Hty, Hout).
    exists (mkResponse out). split; [done|].
    destruct (GetObjectsByHash_inr s req _ Hcall) as (hs & Hhs & Hlen & Hnth).
    rewrite Hdecode in Hhs. injection Hhs as <-. split; [done|].
    intros i hash Hi Hnone. destruct (Hnth i hash Hi) as ([value] & Hc & Hexp).
    rewrite Hty in Hexp. simpl in Hexp. rewrite Hnone in Hexp. by subst value.
  - intros Hty i hash err Hi Herr.
    destruct (GetObjectsByHash_loop_receipts_error s hashes [] i hash err Hi Herr)
      as (j & h' & e' & Hj & Hl & He & Hbefore & Hres).
    exists j, h', e'. repeat (split; [done|]).
    unfold GetObjectsByHash. by rewrite Hdecode, Hty, Hres.
Qed.

End service_properties.

(** ** The statements on the sample chain *)

Section on_the_sample_chain.
Import machine types protocol.

Lemma sample_chain_wf (top : Z) : store_wf (sample.chain top).
Proof. intros k h _. simpl. case_decide; [|done]. by intros [= <-]. Qed.

(** The request of the clamp scenario with a skip of 1, on the chain of the
    heights 0 to 20. *)
Lemma GetHeaders_by_number_witness :
  ∃ hs : list Header,
    GetHeaders sample.UnmarshalText (sample.chain 20)
      (mkGetHeadersRequest 10 EmptyString 1 500)
    = inr (mkResponse (addData <$> hs)) ∧
    Z.of_nat (length hs) <= 190.
Proof.
  destruct (GetHeaders_by_number sample.UnmarshalText (sample.chain 20)
              (mkGetHeadersRequest 10 EmptyString 1 500))
    as (hs & Hres & [Hlen Hclamp] & _).
  - apply sample_chain_wf.
  - simpl. lia.
  - unfold is_int64. simpl. lia.
  - reflexivity.
  - simpl. lia.
  - simpl. lia.
  - exists hs. split; [exact Hres|]. lia.
Defined.

(** A negative number is looked up as a height of [uint64]. On the chain of
    all heights of [uint64], the request by number -5 with a skip of 5 and an
    amount of 3 is answered with the headers 2^64 - 5, 1 and 7: the origin
    does not bear the number -5, the headers after it bear -5 + 6 and
    -5 + 12. *)
Example GetHeaders_negative_number_scenario :
  GetHeaders sample.UnmarshalText (sample.chain (2 ^ 64 - 1))
    (mkGetHeadersRequest (-5) EmptyString 5 3)
  = inr (mkResponse
           (addData <$> [sample.header_at (2 ^ 64 - 5); sample.header_at 1;
                         sample.header_at 7])) ∧
  Number (sample.header_at (2 ^ 64 - 5)) = 2 ^ 64 - 5.
Proof. split; reflexivity. Qed.

(** C2 as first stated fails for an amount of 0: the origin is added before
    the loop tests the amount, so one header is returned where the clamped
    amount allows none. *)
Lemma GetHeaders_amount_zero_counterexample :
  GetHeaders sample.UnmarshalText (sample.chain 20)
    (mkGetHeadersRequest 10 EmptyString 0 0)
  = inr (mkResponse [addData (sample.header_at 10)]) ∧
  ¬ (Z.of_nat (length [addData (sample.header_at 10)])
     <= Z.min 0 maxHeadersAmount).
Proof. split; [reflexivity|]. vm_compute. intros H. by apply H. Qed.

(** The clamp scenario: amount 500, number 10, skip 0 on the heights 0 to 20
    gives the eleven headers 10 to 20. *)
Example GetHeaders_clamp_scenario :
  ∃ resp,
    GetHeaders sample.UnmarshalText (sample.chain 20)
      (mkGetHeadersRequest 10 EmptyString 0 500) = inr resp ∧
    length (Objs resp) = 11%nat ∧
    Objs resp = addData <$> (sample.header_at <$> seqZ 10 11).
Proof. eexists. split; [reflexivity|]. split; reflexivity. Qed.

Lemma GetHeaders_number_and_hash_witness :
  GetHeaders sample.UnmarshalText (sample.chain 20)
    (mkGetHeadersRequest 5 "0xabcd" 0 1)
  = inl "cannot have both"%string.
Proof.
  apply (GetHeaders_number_and_hash sample.UnmarshalText (sample.chain 20)
           (mkGetHeadersRequest 5 "0xabcd" 0 1)); simpl; [lia|discriminate].
Defined.


Lemma GetObjectsByHash_response_witness :
  ∃ hashes,
    sample.DecodeHashes (mkHashRequest ["0x01"; "0xff"; "0x03"] HashRequest_BODIES)
    = inr hashes ∧
    length [mkComponent [Byte.xc2; Byte.x01]; mkComponent [];
            mkComponent [Byte.xc2; Byte.x03]] = length hashes.
Proof.
  destruct (GetObjectsByHash_response sample.DecodeHashes (sample.chain 20)
              (mkHashRequest ["0x01"; "0xff"; "0x03"] HashRequest_BODIES)
              (mkResponse [mkComponent [Byte.xc2; Byte.x01]; mkComponent [];
                           mkComponent [Byte.xc2; Byte.x03]]))
    as (hashes & Hdec & Hlen & _); [reflexivity|].
  exists hashes. split; [exact Hdec|exact Hlen].
Defined.

Lemma GetObjectsByHash_asymmetry_witness :
  ∃ (j : nat) hash' err',
    (j <= 2)%nat ∧ [1; 255; 300]%N !! j = Some hash' ∧
    GetReceiptsByHash (sample.chain 20) hash' = inl err' ∧
    (∀ (k : nat) hk, (k < j)%nat → [1; 255; 300]%N !! k = Some hk →
       ∃ raw, GetReceiptsByHash (sample.chain 20) hk = inr raw) ∧
    GetObjectsByHash sample.DecodeHashes (sample.chain 20)
      (mkHashRequest ["0x01"; "0xff"; "0x012c"] HashRequest_RECEIPTS)
    = inl err'.
Proof.
  refine (proj2 (GetObjectsByHash_asymmetry sample.DecodeHashes (sample.chain 20)
                   (mkHashRequest ["0x01"; "0xff"; "0x012c"] HashRequest_RECEIPTS)
                   [1; 255; 300]%N _) _ 2%nat 300%N "receipts not found"%string _ _);
    reflexivity.
Defined.

(** The quorum scenario: four validators give f = 1 and a threshold of 3. *)
Example quorum_scenario :
  ibft.MinFaultyNodes [10; 20; 30; 40]%N = 1 ∧
  ibft.NumValid (sample.fresh [10; 20; 30; 40]%N) + 1 = 3.
Proof. split; reflexivity. Qed.

(** The catch-up scenario: with four validators, round-change messages for
    round 5 from two of them make [maxRound] answer round 5. *)
Example weak_certificate_scenario :
  ibft.maxRound
    (ibft.AddRoundMessage
       (ibft.AddRoundMessage (sample.fresh [10; 20; 30; 40]%N)
          (ibft.mkMessageReq ibft.MessageReq_RoundChange 10%N
             (ibft.mkView 5 1) [])).1
       (ibft.mkMessageReq ibft.MessageReq_RoundChange 20%N
          (ibft.mkView 5 1) [])).1
  = (5, true).
Proof. reflexivity. Qed.

End on_the_sample_chain.

(** * Further properties of the two files *)

(** ** The validator set *)

Section validator_set_more.
Import machine types ibft.

(** X1. [Index] answers -1 exactly for an address that is not in the set;
    otherwise it is a position below the length, the address stands there and
    at no earlier position. [Includes] is membership. *)
Theorem Index_Includes_spec (v : ValidatorSet) (addr : Address) :
  -1 <= Index v addr < Len v ∧
  (Index v addr = -1 ↔ addr ∉ v) ∧
  (Includes v addr = true ↔ addr ∈ v) ∧
  (∀ i : nat, Index v addr = Z.of_nat i →
     v !! i = Some addr ∧ ∀ j : nat, (j < i)%nat → v !! j ≠ Some addr).
Proof.
  unfold Includes, Index, Len.
  destruct (Index_from_spec v addr 0) as [[Hn ->]|(i & Hi & Hfirst & ->)].
  - split; [lia|]. split; [done|]. split.
    + simpl. split; [done|]. intros; contradiction.
    + intros i Hneg. lia.
  - assert (Hlt : (i < length v)%nat) by (by eapply lookup_lt_Some).
    assert (Hin : addr ∈ v) by (by eapply list_elem_of_lookup_2).
    split; [lia|]. split; [split; [lia|done]|]. split.
    + split; [done|]. intros _. apply negb_true_iff, Z.eqb_neq. lia.
    + intros i' Hi'. assert (i' = i) as -> by lia. done.
Qed.

Lemma Equal_loop_eq (v w : ValidatorSet) :
  length v = length w → Equal_loop v w = true ↔ v = w.
Proof.
  revert w. induction v as [|i v IH]; intros [|j w] Hlen; simpl in *; try done.
  destruct (decide (i ≠ j)) as [Hne|He].
  - split; [done|]. intros [= -> _]. done.
  - assert (i = j) as -> by (destruct (decide (i = j)); [done|contradiction]).
    rewrite IH by lia. split; [by intros ->|by intros [= ->]].
Qed.

(** X2. [Equal] decides equality of the two sets as lists, address by address
    and in order; it is therefore transitive as well. *)
Theorem Equal_iff_same_list (v w : ValidatorSet) :
  (Equal v w = true ↔ v = w) ∧
  (Equal v w = false ↔ v ≠ w) ∧
  (∀ u, Equal v w = true → Equal w u = true → Equal v u = true).
Proof.
  assert (Hiff : ∀ a b : ValidatorSet, Equal a b = true ↔ a = b).
  { intros a b. unfold Equal, Len.
    destruct (decide (Z.of_nat (length a) ≠ Z.of_nat (length b))) as [Hne|He].
    - split; [done|]. intros ->. done.
    - apply Equal_loop_eq. lia. }
  split; [apply Hiff|]. split.
  - rewrite <- Hiff. destruct (Equal v w); split; done.
  - intros u. rewrite !Hiff. congruence.
Qed.

(** X3. [Add] makes the set one longer and includes the address; every
    address already in the set keeps its index, an address that was not in the
    set gets the old length as its index, and no other address comes in. *)
Theorem Add_extends (v : ValidatorSet) (a : Address) :
  Len (Add v a) = Len v + 1 ∧
  Includes (Add v a) a = true ∧
  (∀ b, Includes v b = true →
     Includes (Add v a) b = true ∧ Index (Add v a) b = Index v b) ∧
  (Includes v a = false → Index (Add v a) a = Len v) ∧
  (∀ b, b ≠ a → Includes (Add v a) b = Includes v b).
Proof.
  unfold Add, ValidatorSet in *.
  split; [unfold Len; rewrite length_app; simpl; lia|].
  split; [apply Includes_elem_of, elem_of_app; right; by left|].
  split; [|split].
  - intros b Hb. apply Includes_elem_of in Hb.
    split; [apply Includes_elem_of, elem_of_app; by left|].
    apply list_elem_of_lookup_1 in Hb as Hex.
    destruct (Index_from_spec v b 0) as [[Hn _]|(i & Hi & Hfirst & Hidx)];
      [done|].
    unfold Index at 2. rewrite Hidx. simpl.
    apply Index_first.
    + by apply lookup_app_l_Some.
    + intros j Hj. unfold ValidatorSet. rewrite lookup_app_l by (apply lookup_lt_Some in Hi; lia).
      by apply Hfirst.
  - intros Hout. apply Includes_false in Hout. unfold Len.
    apply Index_first.
    + unfold ValidatorSet. rewrite lookup_app_r by lia. by rewrite Nat.sub_diag.
    + intros j Hj. unfold ValidatorSet. rewrite lookup_app_l by lia. intros Hj'.
      apply Hout. by eapply list_elem_of_lookup_2.
  - intros b Hne. apply eq_true_iff_eq. rewrite !Includes_elem_of.
    rewrite elem_of_app, list_elem_of_singleton.
    split; [intros [?|?]; [done|contradiction]|by left].
Qed.


(** Iterations over cells that do not hold [addr] leave the loop state as it is. *)
Lemma Del_loop_skip (addr : Address) (n : nat) :
  ∀ (indx : nat) (backing : list Address) (len : nat),
    (indx + n <= length backing)%nat →
    (∀ (j : nat) x, (indx <= j < indx + n)%nat → backing !! j = Some x → x ≠ addr) →
    Del_loop addr n indx backing len = Some (backing, len).
Proof.
  induction n as [|n IH]; intros indx backing len Hlen Hno; [done|].
  rewrite Del_loop_S.
  destruct (lookup_lt_is_Some_2 backing indx) as [x Hx]; [lia|].
  rewrite Hx. destruct (decide (x = addr)) as [->|Hne].
  - exfalso. apply (Hno indx addr); [lia|done|done].
  - apply IH; [lia|]. intros j y Hj. apply Hno. lia.
Qed.

(** The loop run in two stretches. *)
Lemma Del_loop_app (addr : Address) (n1 n2 : nat) :
  ∀ (indx : nat) (backing : list Address) (len : nat),
    Del_loop addr (n1 + n2) indx backing len =
    match Del_loop addr n1 indx backing len with
    | Some (backing', len') => Del_loop addr n2 (indx + n1) backing' len'
    | None => None
    end.
Proof.
  induction n1 as [|n1 IH]; intros indx backing len.
  - simpl. by rewrite Nat.add_0_r.
  - replace (S n1 + n2)%nat with (S (n1 + n2)) by lia. rewrite !Del_loop_S.
    destruct (backing !! indx) as [x|]; [|done].
    replace (indx + S n1)%nat with (S indx + n1)%nat by lia.
    destruct (decide (x = addr)); [|apply IH].
    destruct (decide (indx + 1 <= len)%nat); [apply IH|done].
Qed.

(** The loop up to and including the first cell that holds [addr]: the cells
    before it are skipped, the cell is cut out, the rest moves one cell to the
    left and the last cell keeps its old value. *)
Lemma Del_loop_first_match (addr : Address) (pre rest : list Address) (m : nat) :
  (addr ∉ pre) →
  Del_loop addr (length pre + S m) 0 (pre ++ addr :: rest)
    (length pre + S (length rest))
  = Del_loop addr m (S (length pre))
      (pre ++ rest ++ drop (length rest) (addr :: rest))
      (length pre + length rest).
Proof.
  intros Hpre. set (v := pre ++ addr :: rest).
  assert (Hn : length v = (length pre + S (length rest))%nat)
    by (subst v; rewrite length_app; simpl; lia).
  rewrite Del_loop_app.
  rewrite Del_loop_skip; [|lia|].
  2:{ intros j x Hj Hx. subst v. rewrite lookup_app_l in Hx by lia.
      intros ->. apply Hpre. by eapply list_elem_of_lookup_2. }
  cbn [Nat.add]. rewrite Del_loop_S.
  assert (Hat : v !! length pre = Some addr).
  { subst v. rewrite lookup_app_r by lia. by rewrite Nat.sub_diag. }
  rewrite Hat. destruct (decide (addr = addr)); [|done].
  destruct (decide (length pre + 1 <= length pre + S (length rest))%nat); [|lia].
  f_equal; [|lia].
  rewrite <- Hn, firstn_all. subst v. rewrite take_app_length.
  rewrite drop_app_add'; [|done]. simpl. rewrite drop_0.
  rewrite Hn. replace (length pre + S (length rest) - 1)%nat
    with (length pre + length rest)%nat by lia.
  by rewrite drop_app_add'.
Qed.

(** What is left in the last cell comes from the tail. *)
Lemma stale_cell_in_tail (addr x : Address) (rest : list Address) :
  rest ≠ [] → x ∈ drop (length rest) (addr :: rest) → x ∈ rest.
Proof.
  intros Hne Hin. destruct rest as [|r rest']; [done|].
  simpl in Hin. by apply (subseteq_drop (length rest')) in Hin.
Qed.

Lemma Del_first_match (addr : Address) (pre rest : list Address) :
  (addr ∉ pre) →
  Del (pre ++ addr :: rest) addr =
  match Del_loop addr (length rest) (S (length pre))
          (pre ++ rest ++ drop (length rest) (addr :: rest))
          (length pre + length rest) with
  | Some (backing, len) => Some (take len backing)
  | None => None
  end.
Proof.
  intros Hpre. unfold Del. rewrite length_app. cbn [length].
  by rewrite (Del_loop_first_match addr pre rest (length rest) Hpre).
Qed.

Lemma Del_once (addr : Address) (pre suf : list Address) :
  (addr ∉ pre) → (addr ∉ suf) →
  Del (pre ++ addr :: suf) addr = Some (pre ++ suf).
Proof.
  intros Hpre Hsuf. rewrite Del_first_match by done.
  rewrite Del_loop_skip.
  - f_equal.
    replace (length pre + length suf)%nat with (length (pre ++ suf))
      by (rewrite length_app; lia).
    rewrite (assoc_L (++)). by rewrite take_app_length.
  - rewrite !length_app, length_drop. simpl. lia.
  - intros j x Hj Hx. rewrite lookup_app_r in Hx by lia.
    assert (Hin : x ∈ suf ++ drop (length suf) (addr :: suf))
      by (by eapply list_elem_of_lookup_2).
    clear Hx. apply elem_of_app in Hin as [Hin|Hin].
    + intros ->. by apply Hsuf.
    + destruct suf as [|s suf']; [simpl in Hj; lia|].
      apply stale_cell_in_tail in Hin; [|done]. intros ->. by apply Hsuf.
Qed.

(** X5. [Del] does not cope with an address that stands twice in a row: when
    the two copies end the set the call panics on the stale last cell, and
    when other addresses follow, the second copy moves under the index already
    visited and stays in the set. *)
Theorem Del_with_repeated_address (addr : Address) (pre suf : list Address) :
  (addr ∉ pre) → (addr ∉ suf) →
  Del (pre ++ [addr; addr]) addr = None ∧
  (suf ≠ [] →
     Del (pre ++ addr :: addr :: suf) addr = Some (pre ++ addr :: suf)).
Proof.
  intros Hpre Hsuf. split.
  - rewrite Del_first_match by done.
    cbn [length drop app]. rewrite Del_loop_S.
    rewrite lookup_app_r by lia.
    replace (S (length pre) - length pre)%nat with 1%nat by lia.
    cbn [lookup list_lookup].
    destruct (decide (addr = addr)); [|done].
    by destruct (decide (S (length pre) + 1 <= length pre + 1)%nat); [lia|].
  - intros Hne. rewrite Del_first_match by done.
    rewrite Del_loop_skip.
    + f_equal. cbn [length].
      replace (length pre + S (length suf))%nat
        with (length (pre ++ addr :: suf)) by (rewrite length_app; simpl; lia).
      rewrite (assoc_L (++)). by rewrite take_app_length.
    + rewrite !length_app, length_drop. simpl. lia.
    + intros j x Hj Hx. rewrite lookup_app_r in Hx by lia.
      destruct (j - length pre)%nat as [|i] eqn:Hi; [lia|].
      rewrite <- app_comm_cons in Hx. cbn [lookup list_lookup] in Hx.
      assert (Hin : x ∈ suf ++ drop (length (addr :: suf)) (addr :: addr :: suf))
        by (by eapply list_elem_of_lookup_2).
      clear Hx. apply elem_of_app in Hin as [Hin|Hin].
      * intros ->. by apply Hsuf.
      * cbn [length drop] in Hin.
        apply stale_cell_in_tail in Hin; [|done]. intros ->. by apply Hsuf.
Qed.

Lemma Del_with_repeated_address_witness :
  Del ([10; 20] ++ [30; 30])%N 30%N = None ∧
  ([40]%N ≠ [] →
     Del ([10; 20] ++ 30 :: 30 :: [40])%N 30%N
     = Some ([10; 20] ++ 30 :: [40])%N).
Proof.
  apply (Del_with_repeated_address 30%N [10; 20]%N [40]%N);
    apply (bool_decide_unpack _); reflexivity.
Defined.

Lemma filter_ne_id (addr : Address) (l : list Address) :
  (addr ∉ l) → filter (λ x, x ≠ addr) l = l.
Proof.
  induction l as [|x l IH]; intros Hout; [done|].
  apply not_elem_of_cons in Hout as [Hne Hout].
  rewrite filter_cons.
  destruct (decide (x ≠ addr)) as [?|Hn]; [|exfalso; apply Hn; congruence].
  by rewrite IH.
Qed.

(** X4. On a set without repetition [Del] returns normally with the other
    addresses in their order: the address is gone, every other address stays,
    the set is one shorter if the address was in it and is unchanged if not,
    and it is still without repetition. *)
Theorem Del_removes_from_duplicate_free (v : ValidatorSet) (addr : Address) :
  NoDup v →
  ∃ v', Del v addr = Some v' ∧
    v' = filter (λ x, x ≠ addr) v ∧
    Includes v' addr = false ∧
    (∀ b, b ≠ addr → Includes v' b = Includes v b) ∧
    (Includes v addr = true → Len v' = Len v - 1) ∧
    (Includes v addr = false → v' = v) ∧
    NoDup v'.
Proof.
  intros Hnd. unfold ValidatorSet in *. exists (filter (λ x, x ≠ addr) v).
  assert (Hdel : Del v addr = Some (filter (λ x, x ≠ addr) v)).
  { destruct (decide (addr ∈ v)) as [Hin|Hout].
    - apply list_elem_of_split in Hin as (pre & suf & ->).
      apply NoDup_app in Hnd as (_ & Hdisj & Hsuf).
      apply NoDup_cons in Hsuf as [Hsuf _].
      assert (Hpre : addr ∉ pre) by (intros Hin; apply (Hdisj _ Hin); by left).
      rewrite Del_once by done.
      rewrite filter_app, filter_cons.
      destruct (decide (addr ≠ addr)); [done|].
      by rewrite !filter_ne_id.
    - rewrite filter_ne_id by done. unfold Del.
      rewrite Del_loop_skip; [by rewrite firstn_all|lia|].
      intros j x _ Hx ->. apply Hout. by eapply list_elem_of_lookup_2. }
  split; [done|]. split; [done|].
  split; [apply Includes_false; rewrite list_elem_of_filter; by intros [? _]|].
  split; [|split; [|split]].
  - intros b Hb. apply eq_true_iff_eq. rewrite !Includes_elem_of.
    rewrite list_elem_of_filter. split; [by intros [_ ?]|done].
  - intros Hin. apply Includes_elem_of in Hin.
    apply list_elem_of_split in Hin as (pre & suf & ->).
    apply NoDup_app in Hnd as (_ & Hdisj & Hsuf).
    apply NoDup_cons in Hsuf as [Hsuf _].
    assert (Hpre : addr ∉ pre) by (intros Hin; apply (Hdisj _ Hin); by left).
    rewrite filter_app, filter_cons.
    destruct (decide (addr ≠ addr)); [done|].
    rewrite !filter_ne_id by done. unfold Len. rewrite !length_app. simpl. lia.
  - intros Hout. apply Includes_false in Hout. by apply filter_ne_id.
  - by apply NoDup_filter.
Qed.

Lemma Del_removes_from_duplicate_free_witness :
  ∃ v', Del [10; 20; 30; 40]%N 20%N = Some v' ∧
    v' = filter (λ x, x ≠ 20%N) [10; 20; 30; 40]%N ∧
    Includes v' 20%N = false ∧
    (∀ b, b ≠ 20%N → Includes v' b = Includes [10; 20; 30; 40]%N b) ∧
    (Includes [10; 20; 30; 40]%N 20%N = true →
       Len v' = Len [10; 20; 30; 40]%N - 1) ∧
    (Includes [10; 20; 30; 40]%N 20%N = false → v' = [10; 20; 30; 40]%N) ∧
    NoDup v'.
Proof.
  apply (Del_removes_from_duplicate_free [10; 20; 30; 40]%N 20%N).
  apply (bool_decide_unpack (NoDup [10; 20; 30; 40]%N)). reflexivity.
Defined.

End validator_set_more.

(** ** Proposer rotation and fault bounds *)

Section proposer_more.
Import machine types ibft.

(** The seed of [CalcProposer] as long as nothing wraps: a base fixed by the
    last proposer, plus the round. *)
Lemma CalcProposer_no_wrap (v : ValidatorSet) (lastProposer : Address) :
  v ≠ [] → Len v < 2 ^ 63 →
  ∃ base, 0 <= base <= Len v ∧
    ∀ round, 0 <= round → round + Len v < 2 ^ 64 →
      CalcProposer v round lastProposer
      = v !! Z.to_nat ((base + round) `mod` Len v).
Proof.
  intros Hv Hlen.
  assert (Hpos : 0 < Len v) by (unfold Len; destruct v; [done|simpl; lia]).
  assert (Hidx : -1 <= Index v lastProposer < Len v).
  { unfold Index, Len.
    destruct (Index_from_spec v lastProposer 0) as [[_ ->]|(i & Hi & _ & ->)];
      [lia|]. apply lookup_lt_Some in Hi. lia. }
  exists (if decide (lastProposer = ZeroAddress) then 0
          else (if decide (Index v lastProposer ≠ -1)
                then Index v lastProposer else 0) + 1).
  split; [repeat case_decide; lia|].
  intros round Hr Hwrap. unfold CalcProposer, CalcProposer_from.
  rewrite (uint64_small (Len v)) by lia.
  destruct (decide (Len v = 0)); [lia|].
  destruct (decide (lastProposer = ZeroAddress)); [by rewrite Z.add_0_l|].
  rewrite uint64_add3.
  destruct (decide (Index v lastProposer ≠ -1));
    rewrite (Z.mod_small (_ + _ + 1)) by lia; do 3 f_equal; lia.
Qed.

(** X6. As long as the seed does not wrap, consecutive rounds walk through
    the validator set cyclically, one position per round, so within as many
    rounds as there are validators every validator is selected. *)
Theorem CalcProposer_round_robin (v : ValidatorSet) (round : Z)
    (lastProposer : Address) :
  v ≠ [] → Len v < 2 ^ 63 → 0 <= round → round + 2 * Len v < 2 ^ 64 →
  (∃ p, 0 <= p < Len v ∧
     ∀ k, 0 <= k <= Len v →
       CalcProposer v (round + k) lastProposer
       = v !! Z.to_nat ((p + k) `mod` Len v)) ∧
  (∀ a, a ∈ v →
     ∃ k, 0 <= k < Len v ∧ CalcProposer v (round + k) lastProposer = Some a).
Proof.
  intros Hv Hlen Hr Hwrap.
  assert (Hpos : 0 < Len v) by (unfold Len; destruct v; [done|simpl; lia]).
  destruct (CalcProposer_no_wrap v lastProposer Hv Hlen) as (base & Hb & Hseed).
  set (p := (base + round) `mod` Len v).
  assert (Hp : 0 <= p < Len v) by (apply Z.mod_pos_bound; lia).
  assert (Hwalk : ∀ k, 0 <= k <= Len v →
    CalcProposer v (round + k) lastProposer
    = v !! Z.to_nat ((p + k) `mod` Len v)).
  { intros k Hk. rewrite Hseed by lia. subst p.
    rewrite Zplus_mod_idemp_l. do 3 f_equal. lia. }
  split; [by exists p|].
  intros a Ha. apply list_elem_of_lookup_1 in Ha as [j Hj].
  assert (Hjlt : Z.of_nat j < Len v) by (apply lookup_lt_Some in Hj; unfold Len; lia).
  exists ((Z.of_nat j - p) `mod` Len v).
  pose proof (Z.mod_pos_bound (Z.of_nat j - p) (Len v) Hpos) as Hk.
  split; [done|]. rewrite Hwalk by lia.
  rewrite Zplus_mod_idemp_r.
  replace (p + (Z.of_nat j - p)) with (Z.of_nat j) by lia.
  rewrite Z.mod_small by lia. by rewrite Nat2Z.id.
Qed.

Lemma CalcProposer_round_robin_witness :
  ∃ p, 0 <= p < Len [10; 20; 30; 40]%N ∧
    ∀ k, 0 <= k <= Len [10; 20; 30; 40]%N →
      CalcProposer [10; 20; 30; 40]%N (7 + k) 30%N
      = [10; 20; 30; 40]%N !! Z.to_nat ((p + k) `mod` Len [10; 20; 30; 40]%N).
Proof.
  apply (CalcProposer_round_robin [10; 20; 30; 40]%N 7 30%N);
    [discriminate | reflexivity | lia | reflexivity].
Defined.

(** X7. For a non-empty set [MinFaultyNodes] is not negative, f + 1 and the
    quorum 2f + 1 do not exceed the number of validators, a longer set never
    has a smaller f, and one [Add] raises f by one at most. *)
Theorem MinFaultyNodes_bounds (v w : ValidatorSet) :
  1 <= Len v →
  0 <= MinFaultyNodes v ∧
  MinFaultyNodes v + 1 <= Len v ∧
  2 * MinFaultyNodes v + 1 <= Len v ∧
  (Len v <= Len w → MinFaultyNodes v <= MinFaultyNodes w) ∧
  (∀ a, MinFaultyNodes v <= MinFaultyNodes (Add v a) <= MinFaultyNodes v + 1).
Proof.
  intros Hlen. rewrite !MinFaultyNodes_div.
  split; [Z.to_euclidean_division_equations; lia|].
  split; [Z.to_euclidean_division_equations; lia|].
  split; [Z.to_euclidean_division_equations; lia|].
  split; [intros Hle; Z.to_euclidean_division_equations; lia|].
  intros a. rewrite MinFaultyNodes_div.
  assert (Len (Add v a) = Len v + 1) as ->
    by (unfold Add, Len; rewrite length_app; simpl; lia).
  Z.to_euclidean_division_equations; lia.
Qed.

Lemma MinFaultyNodes_bounds_witness :
  2 * MinFaultyNodes [10; 20; 30; 40; 50; 60; 70]%N + 1
  <= Len [10; 20; 30; 40; 50; 60; 70]%N.
Proof.
  refine (proj1 (proj2 (proj2
    (MinFaultyNodes_bounds [10; 20; 30; 40; 50; 60; 70]%N [] _)))).
  unfold Len. simpl. lia.
Defined.

End proposer_more.

(** ** The message stores *)

Section round_state_more.
Import machine types ibft.

(** [addMessage] by cases, the round-change case in one update. *)
Lemma addMessage_cases (c : currentState) (msg : MessageReq) :
  addMessage c msg =
  if Includes (validators c) (FromAddr msg) then
    match MsgType msg with
    | MessageReq_Preprepare => c
    | MessageReq_Prepare =>
        set_prepared c (<[FromAddr msg := msg]> (prepared c))
    | MessageReq_Commit =>
        set_committed c (<[FromAddr msg := msg]> (committed c))
    | MessageReq_RoundChange =>
        set_roundMessages c
          (<[Round (MsgView msg) :=
               <[FromAddr msg := msg]>
                 (default ∅ (roundMessages c !! Round (MsgView msg)))]>
             (roundMessages c))
    end
  else c.
Proof.
  unfold addMessage. destruct (Includes _ _); simpl; [|done].
  destruct (MsgType msg); try done.
  destruct (roundMessages c !! Round (MsgView msg)) as [old|] eqn:Hold.
  - by rewrite Hold.
  - rewrite lookup_insert_eq. simpl. by rewrite insert_insert_eq.
Qed.

Lemma addMessage_validators (c : currentState) (msg : MessageReq) :
  validators (addMessage c msg) = validators c.
Proof.
  rewrite addMessage_cases. destruct (Includes _ _); [|done].
  by destruct (MsgType msg).
Qed.

(** X8. Adding the same message twice is adding it once. *)
Theorem addMessage_idempotent (c : currentState) (msg : MessageReq) :
  addMessage (addMessage c msg) msg = addMessage c msg.
Proof.
  rewrite (addMessage_cases (addMessage c msg)), addMessage_validators.
  rewrite (addMessage_cases c).
  destruct (Includes (validators c) (FromAddr msg)); [|done].
  destruct (MsgType msg); simpl; unfold set_prepared, set_committed,
    set_roundMessages; simpl; try done.
  - by rewrite insert_insert_eq.
  - by rewrite insert_insert_eq.
  - rewrite lookup_insert_eq. simpl. by rewrite !insert_insert_eq.
Qed.

(** X9. Messages of two different senders can be added in either order: the
    resulting state is the same. *)
Theorem addMessage_commutes (c : currentState) (m1 m2 : MessageReq) :
  FromAddr m1 ≠ FromAddr m2 →
  addMessage (addMessage c m1) m2 = addMessage (addMessage c m2) m1.
Proof.
  intros Hdiff.
  rewrite (addMessage_cases (addMessage c m1)), addMessage_validators.
  rewrite (addMessage_cases (addMessage c m2)), addMessage_validators.
  rewrite !(addMessage_cases c).
  destruct (Includes (validators c) (FromAddr m1)); [|done].
  destruct (Includes (validators c) (FromAddr m2)); [|done].
  destruct (MsgType m1) eqn:Ht1, (MsgType m2) eqn:Ht2; simpl;
    unfold set_prepared, set_committed, set_roundMessages; simpl; try done.
  - f_equal. by apply insert_insert_ne.
  - f_equal. by apply insert_insert_ne.
  - f_equal.
    destruct (decide (Round (MsgView m1) = Round (MsgView m2))) as [Hr|Hr].
    + rewrite Hr, !lookup_insert_eq. simpl. rewrite !insert_insert_eq.
      f_equal. by apply insert_insert_ne.
    + rewrite !lookup_insert_ne by done.
      apply insert_insert_ne. done.
Qed.

Lemma addMessage_commutes_witness :
  addMessage
    (addMessage (sample.fresh [10; 20; 30; 40]%N)
       (mkMessageReq MessageReq_Prepare 10%N (mkView 0 1) []))
    (mkMessageReq MessageReq_Prepare 20%N (mkView 0 1) [])
  = addMessage
      (addMessage (sample.fresh [10; 20; 30; 40]%N)
         (mkMessageReq MessageReq_Prepare 20%N (mkView 0 1) []))
      (mkMessageReq MessageReq_Prepare 10%N (mkView 0 1) []).
Proof. apply addMessage_commutes. simpl. discriminate. Defined.


(** A store whose keys are validators holds no more entries than there are
    validators. *)
Lemma bucket_ok_size (v : ValidatorSet) (m : gmap Address MessageReq) :
  bucket_ok v m → Z.of_nat (size m) <= Len v.
Proof.
  intros Hok. unfold Len. apply inj_le.
  rewrite <- length_map_to_list, <- (length_fmap fst).
  apply submseteq_length, NoDup_submseteq; [apply NoDup_fst_map_to_list|].
  intros a Ha. apply list_elem_of_fmap in Ha as ([a' msg] & -> & Hin).
  apply elem_of_map_to_list in Hin. by destruct (Hok _ _ Hin).
Qed.

Lemma state_ok_tallies (c : currentState) :
  state_ok c →
  numPrepared c <= Len (validators c) ∧
  numCommitted c <= Len (validators c) ∧
  ∀ r, numRounds c r <= Len (validators c).
Proof.
  intros (Hp & Hc & Hr). split; [by apply bucket_ok_size|].
  split; [by apply bucket_ok_size|].
  intros r. unfold numRounds.
  destruct (roundMessages c !! r) as [m|] eqn:Hm.
  - apply bucket_ok_size. by eapply Hr.
  - unfold Len. lia.
Qed.

Lemma foldl_addMessage_state_ok (msgs : list MessageReq) :
  ∀ c, state_ok c →
    state_ok (foldl addMessage c msgs) ∧
    validators (foldl addMessage c msgs) = validators c.
Proof.
  induction msgs as [|msg msgs IH]; intros c Hok; simpl; [done|].
  destruct (IH (addMessage c msg)) as [Hok' Hv];
    [by apply addMessage_state_ok|].
  split; [done|]. by rewrite Hv, addMessage_validators.
Qed.

(** X10. In a state that satisfies the invariant of the message stores, and
    so in every state reached from a reset by adding messages, [numPrepared],
    [numCommitted] and [numRounds] of any round are at most the number of
    validators. *)
Theorem tallies_never_exceed_validators (c : currentState)
    (msgs : list MessageReq) :
  (state_inv c →
     numPrepared c <= Len (validators c) ∧
     numCommitted c <= Len (validators c) ∧
     ∀ r, numRounds c r <= Len (validators c)) ∧
  (let c' := foldl addMessage (resetRoundMsgs c) msgs in
   validators c' = validators c ∧
   numPrepared c' <= Len (validators c) ∧
   numCommitted c' <= Len (validators c) ∧
   ∀ r, numRounds c' r <= Len (validators c)).
Proof.
  split; [intros Hinv; by apply state_ok_tallies, state_ok_inv|].
  cbv zeta.
  destruct (foldl_addMessage_state_ok msgs (resetRoundMsgs c)) as [Hok Hv].
  { apply state_ok_inv, resetRoundMsgs_state_inv. }
  simpl in Hv. split; [done|].
  apply state_ok_tallies in Hok. by rewrite Hv in Hok.
Qed.

(** X11. A Prepare message of a validator given to [addPrepared] becomes the
    sender's entry of the prepared map, leaves the entries of the other
    senders, raises [numPrepared] by one exactly when the sender had no entry,
    and touches neither the committed map nor the round messages;
    [addCommitted] ignores it. The same holds for Commit messages and
    [addCommitted], with the roles exchanged. *)
Theorem votes_last_write_wins (c : currentState) (msg : MessageReq) :
  Includes (validators c) (FromAddr msg) = true →
  (MsgType msg = MessageReq_Prepare →
     let c' := addPrepared c msg in
     prepared c' !! FromAddr msg = Some msg ∧
     (∀ a, a ≠ FromAddr msg → prepared c' !! a = prepared c !! a) ∧
     numPrepared c' =
       numPrepared c
       + match prepared c !! FromAddr msg with Some _ => 0 | None => 1 end ∧
     committed c' = committed c ∧ roundMessages c' = roundMessages c ∧
     addCommitted c msg = c) ∧
  (MsgType msg = MessageReq_Commit →
     let c' := addCommitted c msg in
     committed c' !! FromAddr msg = Some msg ∧
     (∀ a, a ≠ FromAddr msg → committed c' !! a = committed c !! a) ∧
     numCommitted c' =
       numCommitted c
       + match committed c !! FromAddr msg with Some _ => 0 | None => 1 end ∧
     prepared c' = prepared c ∧ roundMessages c' = roundMessages c ∧
     addPrepared c msg = c).
Proof.
  intros Hin. unfold addPrepared, addCommitted.
  split; intros Ht; rewrite Ht; cbv zeta; rewrite addMessage_cases, Hin, Ht;
    simpl.
  - split; [apply lookup_insert_eq|].
    split; [intros a Ha; by apply lookup_insert_ne|].
    split; [|done]. unfold numPrepared. simpl. rewrite map_size_insert.
    destruct (prepared c !! FromAddr msg); simpl; lia.
  - split; [apply lookup_insert_eq|].
    split; [intros a Ha; by apply lookup_insert_ne|].
    split; [|done]. unfold numCommitted. simpl. rewrite map_size_insert.
    destruct (committed c !! FromAddr msg); simpl; lia.
Qed.

Lemma votes_last_write_wins_witness :
  let c' := addPrepared (sample.fresh [10; 20; 30; 40]%N)
              (mkMessageReq MessageReq_Prepare 20%N (mkView 0 1) []) in
  prepared c' !! 20%N
    = Some (mkMessageReq MessageReq_Prepare 20%N (mkView 0 1) []) ∧
  numPrepared c' = 1.
Proof.
  destruct (votes_last_write_wins (sample.fresh [10; 20; 30; 40]%N)
              (mkMessageReq MessageReq_Prepare 20%N (mkView 0 1) []))
    as [Hp _]; [reflexivity|].
  destruct (Hp eq_refl) as (Hl & _ & Hn & _).
  split; [exact Hl|exact Hn].
Defined.


(** X12. [AddRoundMessage] returns 0 and changes nothing for a message that
    is not a RoundChange. For a RoundChange of a sender that is not a validator
    it changes nothing and returns the number of messages the round already
    has. For a RoundChange of a validator it files the message under the round
    and the sender and returns the new size of that round's map: one more
    than before if the sender had no message for the round, the same if it
    had; other rounds and the two vote maps stay as they were. *)
Theorem AddRoundMessage_count (c : currentState) (msg : MessageReq) :
  let r := Round (MsgView msg) in
  (MsgType msg ≠ MessageReq_RoundChange → AddRoundMessage c msg = (c, 0)) ∧
  (MsgType msg = MessageReq_RoundChange →
     Includes (validators c) (FromAddr msg) = false →
     AddRoundMessage c msg = (c, numRounds c r)) ∧
  (MsgType msg = MessageReq_RoundChange →
     Includes (validators c) (FromAddr msg) = true →
     let c' := (AddRoundMessage c msg).1 in
     let n := (AddRoundMessage c msg).2 in
     n = numRounds c' r ∧
     n = numRounds c r
         + match default ∅ (roundMessages c !! r) !! FromAddr msg with
           | Some _ => 0
           | None => 1
           end ∧
     1 <= n ∧
     (∃ m, roundMessages c' !! r = Some m ∧ m !! FromAddr msg = Some msg) ∧
     (∀ r', r' ≠ r → roundMessages c' !! r' = roundMessages c !! r') ∧
     prepared c' = prepared c ∧ committed c' = committed c).
Proof.
  cbv zeta. unfold AddRoundMessage. split; [|split].
  - intros Ht. by destruct (decide (MsgType msg ≠ MessageReq_RoundChange)).
  - intros Ht Hout.
    destruct (decide (MsgType msg ≠ MessageReq_RoundChange)); [done|].
    rewrite addMessage_cases, Hout. unfold numRounds.
    by destruct (roundMessages c !! Round (MsgView msg)).
  - intros Ht Hin.
    destruct (decide (MsgType msg ≠ MessageReq_RoundChange)); [done|].
    rewrite addMessage_cases, Hin, Ht. simpl. unfold numRounds. simpl.
    rewrite !lookup_insert_eq. simpl.
    set (old := default ∅ (roundMessages c !! Round (MsgView msg))).
    assert (Hold : Z.of_nat (size old) =
      match roundMessages c !! Round (MsgView msg) with
      | Some obj => Z.of_nat (size obj)
      | None => 0
      end).
    { subst old. destruct (roundMessages c !! Round (MsgView msg)); [done|].
      simpl. by rewrite map_size_empty. }
    rewrite <- Hold, map_size_insert. clearbody old.
    split; [done|].
    destruct (old !! FromAddr msg) as [prev|] eqn:Hprev; unfold id.
    + assert (size old ≠ 0%nat) by (by eapply map_size_ne_0_lookup_2).
      split; [lia|]. split; [lia|].
      split; [eexists; split; [done|apply lookup_insert_eq]|].
      split; [|done]. intros r' Hr'. by apply lookup_insert_ne.
    + split; [lia|]. split; [lia|].
      split; [eexists; split; [done|apply lookup_insert_eq]|].
      split; [|done]. intros r' Hr'. by apply lookup_insert_ne.
Qed.

(** X13. After [cleanRound] the round has no messages, the other rounds and
    the two vote maps are as before, the invariant of the stores is kept,
    [maxRound] cannot answer with that round, and cleaning again changes
    nothing. *)
Theorem cleanRound_forgets_round (c : currentState) (round : Z) :
  numRounds (cleanRound c round) round = 0 ∧
  (∀ r, r ≠ round → numRounds (cleanRound c round) r = numRounds c r) ∧
  prepared (cleanRound c round) = prepared c ∧
  committed (cleanRound c round) = committed c ∧
  (state_inv c → state_inv (cleanRound c round)) ∧
  ((maxRound (cleanRound c round)).2 = true →
     (maxRound (cleanRound c round)).1 ≠ round) ∧
  cleanRound (cleanRound c round) round = cleanRound c round.
Proof.
  unfold cleanRound, numRounds. simpl.
  split; [by rewrite lookup_delete_eq|].
  split; [intros r Hr; by rewrite lookup_delete_ne|].
  split; [done|]. split; [done|]. split; [|split].
  - rewrite <- !state_ok_inv. intros (Hp & Hc & Hr).
    split; [done|]. split; [done|]. simpl. intros r m Hm.
    apply lookup_delete_Some in Hm as [_ Hm]. by eapply Hr.
  - intros Hfound Heq.
    destruct (maxRound_fold_spec
                (MinFaultyNodes (validators c) + 1)
                (delete round (roundMessages c))) as (_ & _ & Hmax & _).
    unfold maxRound in *. simpl in *.
    destruct (Hmax Hfound) as [(m & Hm & _) _].
    rewrite Heq, lookup_delete_eq in Hm. done.
  - unfold set_roundMessages. simpl. f_equal. apply delete_delete_eq.
Qed.

(** X14. [maxRound] answers found exactly when some round above 0 holds at
    least [MinFaultyNodes + 1] messages; the round it returns is then the
    greatest round that holds so many; when it answers not found the round
    returned is 0. *)
Theorem maxRound_above_round_zero (c : currentState) :
  let num := MinFaultyNodes (validators c) + 1 in
  ((maxRound c).2 = true ↔
     ∃ k, 0 < k ∧ num <= numRounds c k ∧ is_Some (roundMessages c !! k)) ∧
  ((maxRound c).2 = true →
     0 < (maxRound c).1 ∧ num <= numRounds c (maxRound c).1 ∧
     ∀ k, is_Some (roundMessages c !! k) → num <= numRounds c k →
          k <= (maxRound c).1) ∧
  ((maxRound c).2 = false → (maxRound c).1 = 0).
Proof.
  cbv zeta.
  assert (Hq : ∀ k, qualifies (MinFaultyNodes (validators c) + 1)
                      (roundMessages c) k ↔
                    is_Some (roundMessages c !! k) ∧
                    MinFaultyNodes (validators c) + 1 <= numRounds c k).
  { intros k. unfold qualifies, numRounds. split.
    - intros (m & Hm & Hs). rewrite Hm. eauto.
    - intros [[m Hm] Hs]. rewrite Hm in Hs. eauto. }
  destruct (maxRound_fold_spec (MinFaultyNodes (validators c) + 1)
              (roundMessages c)) as (Hpos & Hfound & Hmax & Hzero).
  fold (maxRound c) in Hpos, Hfound, Hmax, Hzero.
  split; [|split; [|done]].
  - rewrite Hfound. split; intros (k & H1 & H2).
    + apply Hq in H1 as [? ?]. eauto.
    + destruct H2. exists k. split; [by apply Hq|done].
  - intros Ht. destruct (Hmax Ht) as [Hqr Hle].
    apply Hfound in Ht as (k & Hk & Hk0).
    split; [specialize (Hle k Hk); lia|].
    split; [by apply Hq|]. intros k' Hsome Hnum. apply Hle, Hq. done.
Qed.


(** A message never shrinks the map of a round. *)
Lemma addMessage_round_grows (c : currentState) (msg : MessageReq) (k : Z)
    (m : gmap Address MessageReq) :
  roundMessages c !! k = Some m →
  ∃ m', roundMessages (addMessage c msg) !! k = Some m' ∧
        (size m <= size m')%nat.
Proof.
  intros Hm. rewrite addMessage_cases.
  destruct (Includes _ _); [|by exists m].
  destruct (MsgType msg); simpl; try by exists m.
  destruct (decide (Round (MsgView msg) = k)) as [->|Hne].
  - rewrite lookup_insert_eq, Hm. simpl. eexists. split; [done|].
    rewrite map_size_insert. destruct (m !! FromAddr msg); unfold id; lia.
  - rewrite lookup_insert_ne by done. by exists m.
Qed.

(** X15. Adding a message never lowers the round [maxRound] returns and
    never turns found into not found. *)
Theorem maxRound_monotone (c : currentState) (msg : MessageReq) :
  (maxRound c).1 <= (maxRound (addMessage c msg)).1 ∧
  ((maxRound c).2 = true → (maxRound (addMessage c msg)).2 = true) ∧
  (maxRound c).1 <= (maxRound (AddRoundMessage c msg).1).1.
Proof.
  assert (Hmono : (maxRound c).1 <= (maxRound (addMessage c msg)).1 ∧
    ((maxRound c).2 = true → (maxRound (addMessage c msg)).2 = true)).
  { destruct (maxRound_fold_spec (MinFaultyNodes (validators c) + 1)
                (roundMessages c)) as (_ & Hfound & Hmax & Hzero).
    destruct (maxRound_fold_spec
                (MinFaultyNodes (validators (addMessage c msg)) + 1)
                (roundMessages (addMessage c msg)))
      as (Hpos' & Hfound' & Hmax' & _).
    rewrite addMessage_validators in *.
    fold (maxRound c) in Hfound, Hmax, Hzero.
    assert (Hfold : map_fold (maxRound_step (MinFaultyNodes (validators c) + 1))
                      (0, false) (roundMessages (addMessage c msg))
                    = maxRound (addMessage c msg))
      by (unfold maxRound; by rewrite addMessage_validators).
    rewrite Hfold in Hpos', Hfound', Hmax'.
    assert (Hq : ∀ k, qualifies (MinFaultyNodes (validators c) + 1)
                        (roundMessages c) k →
                      qualifies (MinFaultyNodes (validators c) + 1)
                        (roundMessages (addMessage c msg)) k).
    { intros k (m & Hm & Hs).
      destruct (addMessage_round_grows c msg k m Hm) as (m' & Hm' & Hle).
      exists m'. split; [done|lia]. }
    destruct ((maxRound c).2) eqn:Hf.
    - destruct (Hmax eq_refl) as [Hqr _].
      destruct (proj1 Hfound eq_refl) as (k & Hk & Hk0).
      assert (Hf' : (maxRound (addMessage c msg)).2 = true)
        by (apply Hfound'; exists k; split; [by apply Hq|done]).
      split; [|done]. destruct (Hmax' Hf') as [_ Hle]. by apply Hle, Hq.
    - rewrite Hzero by done. split; [exact Hpos'|done]. }
  split; [apply Hmono|]. split; [apply Hmono|].
  unfold AddRoundMessage. case_decide; simpl; [lia|apply Hmono].
Qed.

(** X16. [CalcProposer] of the state panics on a nil view and on an empty
    validator set. Otherwise it sets the proposer to the address the validator
    set selects for the round of the view, which is one of the validators, and
    changes no other field: the validators, the state, the block, the view,
    the prepared and committed maps, the round messages, the lock and the
    error are as before. *)
Theorem state_CalcProposer_picks_validator (c : currentState)
    (lastProposer : Address) :
  (view c = None → state_CalcProposer c lastProposer = None) ∧
  (validators c = [] → state_CalcProposer c lastProposer = None) ∧
  (∀ vw, view c = Some vw → validators c ≠ [] →
     Len (validators c) < 2 ^ 63 → 0 <= Round vw →
     ∃ c', state_CalcProposer c lastProposer = Some c' ∧
       Includes (validators c') (proposer c') = true ∧
       CalcProposer (validators c) (Round vw) lastProposer
       = Some (proposer c') ∧
       validators c' = validators c ∧ state c' = state c ∧
       block c' = block c ∧ view c' = view c ∧
       prepared c' = prepared c ∧ committed c' = committed c ∧
       roundMessages c' = roundMessages c ∧
       locked c' = locked c ∧ err c' = err c).
Proof.
  unfold state_CalcProposer. split; [by intros ->|]. split.
  - intros Hv. destruct (view c); [|done]. by rewrite Hv.
  - intros vw Hview Hv Hlen Hr. rewrite Hview.
    set (seed := if decide (lastProposer = ZeroAddress) then Round vw
                 else uint64 (uint64 (uint64
                        (if decide (Index (validators c) lastProposer ≠ -1)
                         then Index (validators c) lastProposer else 0)
                        + Round vw) + 1)).
    assert (Hseed : 0 <= seed).
    { subst seed. case_decide; [done|]. unfold uint64 at 1.
      apply Z.mod_pos_bound. lia. }
    destruct (CalcProposer_pick (validators c) seed Hv Hlen Hseed)
      as (p & Hp & Hin).
    assert (Hcalc : CalcProposer (validators c) (Round vw) lastProposer = Some p).
    { unfold CalcProposer, CalcProposer_from. fold seed.
      destruct (decide (uint64 (Len (validators c)) = 0)) as [Hz|_]; [|done].
      rewrite uint64_small in Hz; [|unfold Len in *; lia].
      unfold Len in Hz. destruct (validators c); [done|simpl in Hz; lia]. }
    rewrite Hcalc. exists (set_proposer c p). split; [done|]. simpl.
    split; [by apply Includes_elem_of|]. by repeat split.
Qed.

Lemma state_CalcProposer_picks_validator_witness :
  ∃ c', state_CalcProposer
          (mkState [10; 20; 30; 40]%N 0 None ZeroAddress (Some (mkView 2 7))
             ∅ ∅ ∅ false None) 40%N = Some c' ∧
        Includes (validators c') (proposer c') = true.
Proof.
  destruct (proj2 (proj2 (state_CalcProposer_picks_validator
    (mkState [10; 20; 30; 40]%N 0 None ZeroAddress (Some (mkView 2 7))
       ∅ ∅ ∅ false None) 40%N)) (mkView 2 7))
    as (c' & Hc & Hin & _); [reflexivity|discriminate|reflexivity|simpl; lia|].
  exists c'. split; [exact Hc|exact Hin].
Defined.

End round_state_more.

(** ** The header and object endpoints *)

Section service_more.
Import machine types protocol.
Context {Body Receipt : Type}.
Context `{!rlpObject Header, !rlpObject Body, !rlpObject (list Receipt)}.
Variable DecodeHashes : HashRequest → error + list Hash.
Variable UnmarshalText : string → error + Hash.

(** Each turn of the loop of [GetHeaders] appends one object at most. *)
Lemma GetHeaders_loop_length (s : blockchainShim Body Receipt) (skip : Z)
    (todo : nat) :
  ∀ origin objs,
    (length objs <= length (GetHeaders_loop s skip todo origin objs)
       <= length objs + todo)%nat.
Proof.
  induction todo as [|todo IH]; intros origin objs; simpl; [lia|].
  case_decide; [lia|].
  destruct (GetHeaderByNumber s _) as [h|]; [|lia].
  specialize (IH h (objs ++ [addData h])). rewrite length_app in IH.
  simpl in IH. lia.
Qed.

(** X17. Whatever the request and the store, a response of [GetHeaders] has
    at most 190 objects, and at most as many as the amount asked for, or one
    when the amount is below 1. *)
Theorem GetHeaders_response_capped (s : blockchainShim Body Receipt)
    (req : GetHeadersRequest) (resp : Response) :
  GetHeaders UnmarshalText s req = inr resp →
  Z.of_nat (length (Objs resp)) <= maxHeadersAmount ∧
  Z.of_nat (length (Objs resp)) <= Z.max 1 (GH_Amount req).
Proof.
  unfold GetHeaders, maxHeadersAmount. case_decide; [done|].
  set (amount := if decide (GH_Amount req > 190) then 190 else GH_Amount req).
  assert (Ha : amount <= 190 ∧ amount <= GH_Amount req)
    by (subst amount; case_decide; lia).
  destruct (if decide (GH_Number req ≠ 0) then _ else _) as [err|[origin|]];
    [done| |].
  - intros [= <-]. simpl.
    pose proof (GetHeaders_loop_length s (int64 (GH_Skip req + 1))
                  (Z.to_nat (amount - 1)) origin [addData origin]) as Hlen.
    simpl in Hlen. lia.
  - intros [= <-]. simpl. lia.
Qed.

Lemma int64_range (z : Z) : - 2 ^ 63 <= int64 z < 2 ^ 63.
Proof. unfold int64. Z.to_euclidean_division_equations. lia. Qed.

(** One step of the loop for any step [d] of [int64]: the next height is
    [m + d] while that is a height below 2^63, and the loop stops otherwise. *)
Lemma next_block_any (m d : Z) :
  0 <= m < 2 ^ 63 → - 2 ^ 63 <= d < 2 ^ 63 →
  (0 <= m + d < 2 ^ 63 ∧ int64 (int64 m + d) = m + d) ∨
  ((m + d < 0 ∨ 2 ^ 63 <= m + d) ∧ int64 (int64 m + d) < 0).
Proof.
  intros Hm Hd. rewrite (int64_small m) by lia.
  destruct (decide (0 <= m + d < 2 ^ 63)) as [Hin|Hout].
  - left. split; [done|]. apply int64_small. lia.
  - right. split; [lia|].
    destruct (decide (m + d < 0)).
    + rewrite int64_small by lia. done.
    + apply int64_high. lia.
Qed.

Lemma GetHeaders_loop_progression (s : blockchainShim Body Receipt) (d : Z)
    (todo : nat) :
  store_wf s → - 2 ^ 63 <= d < 2 ^ 63 →
  ∀ (origin : Header) (objs : list Response_Component) (m : Z),
    Number origin = m → 0 <= m < 2 ^ 63 →
    ∃ hs : list Header,
      GetHeaders_loop s d todo origin objs = objs ++ (addData <$> hs) ∧
      (length hs <= todo)%nat ∧
      (∀ (i : nat) h, hs !! i = Some h →
         0 <= m + (Z.of_nat i + 1) * d < 2 ^ 63 ∧
         GetHeaderByNumber s (m + (Z.of_nat i + 1) * d) = Some h ∧
         Number h = m + (Z.of_nat i + 1) * d) ∧
      ((length hs < todo)%nat →
         let next := m + (Z.of_nat (length hs) + 1) * d in
         next < 0 ∨ 2 ^ 63 <= next ∨ GetHeaderByNumber s next = None).
Proof.
  intros Hwf Hd. induction todo as [|todo IH]; intros origin objs m Hnum Hm.
  - loop_stops. lia.
  - cbn [GetHeaders_loop]. rewrite Hnum.
    destruct (next_block_any m d Hm Hd) as [[Hin Hb]|[Hout Hb]].
    + rewrite Hb. destruct (decide (m + d < 0)); [lia|].
      rewrite uint64_small by lia.
      destruct (GetHeaderByNumber s (m + d)) as [h|] eqn:Hget.
      * assert (Hh : Number h = m + d) by (apply Hwf; [lia|done]).
        destruct (IH h (objs ++ [addData h]) (m + d) Hh) as
          (hs & Heq & Hlen & Hnth & Hstop); [lia|].
        exists (h :: hs). rewrite Heq. rewrite <- (assoc_L (++)). simpl.
        split; [done|]. split; [lia|]. split.
        -- intros [|i] h' Hi; simpl in Hi.
           ++ injection Hi as <-. simpl. rewrite Z.mul_1_l. done.
           ++ replace (m + (Z.of_nat (S i) + 1) * d)
                with (m + d + (Z.of_nat i + 1) * d) by lia.
              by apply Hnth.
        -- intros Hl. cbv zeta.
           replace (m + (Z.of_nat (S (length hs)) + 1) * d)
             with (m + d + (Z.of_nat (length hs) + 1) * d) by lia.
           apply Hstop. lia.
      * loop_stops. intros _. cbv zeta. simpl. rewrite Z.mul_1_l. auto.
    + destruct (decide (int64 (int64 m + d) < 0)); [|lia].
      loop_stops. intros _. cbv zeta. simpl. rewrite Z.mul_1_l.
      destruct Hout; auto.
Qed.

(** X18. Take a store that files each header under its own number, and a
    request with number 0 whose hash text parses to the hash of a header the
    store holds, the origin, with a number m below 2^63. The response starts
    with the origin and goes on with the store's headers at the heights
    m + d, m + 2 d, ..., each of them from 0 to below 2^63, where the step d
    is skip + 1 in [int64] and may be negative. After the origin come at most
    max(0, min(amount, 190) - 1) headers, so the origin is returned even for
    an amount below 1; fewer come only when the next height is negative, is
    2^63 or more, or is missing from the store. *)
Theorem GetHeaders_by_hash_progression (s : blockchainShim Body Receipt)
    (req : GetHeadersRequest) (hash : Hash) (origin : Header) :
  store_wf s →
  GH_Number req = 0 → UnmarshalText (GH_Hash req) = inr hash →
  GetHeaderByHash s hash = Some origin → 0 <= Number origin < 2 ^ 63 →
  let d := int64 (GH_Skip req + 1) in
  let m := Number origin in
  let amount := Z.min (GH_Amount req) maxHeadersAmount in
  ∃ hs : list Header,
    GetHeaders UnmarshalText s req
    = inr (mkResponse (addData <$> origin :: hs)) ∧
    Z.of_nat (length hs) <= Z.max 0 (amount - 1) ∧
    (∀ (i : nat) h, hs !! i = Some h →
       0 <= m + (Z.of_nat i + 1) * d < 2 ^ 63 ∧
       GetHeaderByNumber s (m + (Z.of_nat i + 1) * d) = Some h ∧
       Number h = m + (Z.of_nat i + 1) * d) ∧
    (Z.of_nat (length hs) < amount - 1 →
       let next := m + (Z.of_nat (length hs) + 1) * d in
       next < 0 ∨ 2 ^ 63 <= next ∨ GetHeaderByNumber s next = None).
Proof.
  intros Hwf Hzero Hparse Hfound Hm d m amount.
  unfold GetHeaders. rewrite Hzero, Hparse, Hfound.
  destruct (decide (0 ≠ 0 ∧ GH_Hash req ≠ EmptyString)) as [[? _]|_]; [done|].
  destruct (decide (0 ≠ 0)); [done|].
  assert (Hamount :
    (if decide (GH_Amount req > maxHeadersAmount) then maxHeadersAmount
     else GH_Amount req) = amount).
  { subst amount. unfold maxHeadersAmount. case_decide; lia. }
  rewrite Hamount. fold d.
  destruct (GetHeaders_loop_progression s d (Z.to_nat (amount - 1)) Hwf
              (int64_range _) origin [addData origin] m eq_refl Hm)
    as (hs & Heq & Hlen & Hnth & Hstop).
  exists hs. rewrite Heq. split; [done|]. split; [lia|]. split; [done|].
  intros Hlt. apply Hstop. lia.
Qed.

(** With a step of 0 the loop asks for the height of the origin again and
    again. *)
Lemma GetHeaders_loop_standstill (s : blockchainShim Body Receipt)
    (origin : Header) (todo : nat) :
  GetHeaderByNumber s (Number origin) = Some origin →
  0 <= Number origin < 2 ^ 63 →
  ∀ objs, GetHeaders_loop s 0 todo origin objs
          = objs ++ replicate todo (addData origin).
Proof.
  intros Hget Hm. induction todo as [|todo IH]; intros objs; simpl.
  - by rewrite app_nil_r.
  - rewrite Z.add_0_r, (int64_small (Number origin)) by lia.
    rewrite (int64_small (Number origin)) by lia.
    destruct (decide (Number origin < 0)); [lia|].
    rewrite uint64_small by lia. rewrite Hget, IH.
    by rewrite <- (assoc_L (++)).
Qed.

(** X19. With a skip of -1 the step is 0. Take a request by number n, from
    1 to below 2^63, with an empty hash, and a store that holds at height n a
    header bearing the number n: the loop asks for that height every time,
    and the response is that header repeated max(1, min(amount, 190)) times,
    once when the amount is below 1. *)
Theorem GetHeaders_skip_minus_one (s : blockchainShim Body Receipt)
    (req : GetHeadersRequest) (origin : Header) :
  GH_Hash req = EmptyString → 0 < GH_Number req < 2 ^ 63 →
  GH_Skip req = -1 →
  GetHeaderByNumber s (GH_Number req) = Some origin →
  Number origin = GH_Number req →
  GetHeaders UnmarshalText s req
  = inr (mkResponse
           (replicate
              (Z.to_nat (Z.max 1 (Z.min (GH_Amount req) maxHeadersAmount)))
              (addData origin))).
Proof.
  intros Hhash Hn Hskip Hget Hnum.
  unfold GetHeaders. rewrite Hhash, Hskip.
  destruct (decide (GH_Number req ≠ 0 ∧ EmptyString ≠ EmptyString))
    as [[_ ?]|_]; [done|].
  destruct (decide (GH_Number req ≠ 0)); [|lia].
  rewrite uint64_small by lia. rewrite Hget.
  assert (Hamount :
    (if decide (GH_Amount req > maxHeadersAmount) then maxHeadersAmount
     else GH_Amount req) = Z.min (GH_Amount req) maxHeadersAmount).
  { unfold maxHeadersAmount. case_decide; lia. }
  rewrite Hamount. change (int64 (-1 + 1)) with 0.
  rewrite GetHeaders_loop_standstill; [|by rewrite Hnum|lia].
  do 2 f_equal. change ([addData origin]) with (replicate 1 (addData origin)).
  rewrite <- replicate_add. f_equal. unfold maxHeadersAmount. lia.
Qed.

Lemma GetObjectsByHash_loop_unknown (s : blockchainShim Body Receipt) (n : Z)
    (hashes : list Hash) :
  ∀ objs, GetObjectsByHash_loop s (HashRequest_unknown n) hashes objs
          = inr (objs ++ replicate (length hashes) (mkComponent [])).
Proof.
  induction hashes as [|h rest IH]; intros objs; simpl.
  - by rewrite app_nil_r.
  - rewrite IH. by rewrite <- (assoc_L (++)).
Qed.

(** X20. For a kind that is neither BODIES nor RECEIPTS the call succeeds
    without looking anything up, with one empty payload per hash. *)
Theorem GetObjectsByHash_unknown_kind (s : blockchainShim Body Receipt)
    (req : HashRequest) (n : Z) (hashes : list Hash) :
  HR_Type req = HashRequest_unknown n → DecodeHashes req = inr hashes →
  GetObjectsByHash DecodeHashes s req
  = inr (mkResponse (replicate (length hashes) (mkComponent []))).
Proof.
  intros Hty Hdec. unfold GetObjectsByHash.
  by rewrite Hdec, Hty, GetObjectsByHash_loop_unknown.
Qed.

Lemma GetObjectsByHash_loop_receipts_ok (s : blockchainShim Body Receipt)
    (hashes : list Hash) (raws : list (list Receipt)) :
  Forall2 (λ h raw, GetReceiptsByHash s h = inr raw) hashes raws →
  ∀ objs, GetObjectsByHash_loop s HashRequest_RECEIPTS hashes objs
          = inr (objs ++ ((λ raw, mkComponent (MarshalRLPTo raw [])) <$> raws)).
Proof.
  induction 1 as [|h raw hashes raws Hh _ IH]; intros objs; simpl.
  - by rewrite app_nil_r.
  - rewrite Hh, IH. by rewrite <- (assoc_L (++)).
Qed.

(** X21. For RECEIPTS the call succeeds exactly when the look-up of every
    hash succeeds, and the response then holds the encoding of each hash's
    receipts, in order; no payload stands for a missing entry. *)
Theorem GetObjectsByHash_receipts_all_or_nothing
    (s : blockchainShim Body Receipt) (req : HashRequest)
    (hashes : list Hash) :
  HR_Type req = HashRequest_RECEIPTS → DecodeHashes req = inr hashes →
  (∀ raws, Forall2 (λ h raw, GetReceiptsByHash s h = inr raw) hashes raws →
     GetObjectsByHash DecodeHashes s req
     = inr (mkResponse
              ((λ raw, mkComponent (MarshalRLPTo raw [])) <$> raws))) ∧
  (∀ resp, GetObjectsByHash DecodeHashes s req = inr resp →
     ∃ raws, Forall2 (λ h raw, GetReceiptsByHash s h = inr raw) hashes raws ∧
       Objs resp = (λ raw, mkComponent (MarshalRLPTo raw [])) <$> raws).
Proof.
  intros Hty Hdec. split.
  - intros raws Hall. unfold GetObjectsByHash.
    by rewrite Hdec, Hty, (GetObjectsByHash_loop_receipts_ok s hashes raws Hall).
  - intros resp. unfold GetObjectsByHash. rewrite Hdec, Hty.
    assert (Hloop : ∀ hs objs out,
      GetObjectsByHash_loop s HashRequest_RECEIPTS hs objs = inr out →
      ∃ raws, Forall2 (λ h raw, GetReceiptsByHash s h = inr raw) hs raws ∧
        out = objs ++ ((λ raw, mkComponent (MarshalRLPTo raw [])) <$> raws)).
    { induction hs as [|h hs IH]; intros objs out; simpl.
      - intros [= <-]. exists []. split; [constructor|by rewrite app_nil_r].
      - destruct (GetReceiptsByHash s h) as [e|raw] eqn:Hh; [done|].
        intros Hout. destruct (IH _ _ Hout) as (raws & Hall & ->).
        exists (raw :: raws). split; [by constructor|].
        by rewrite <- (assoc_L (++)). }
    destruct (GetObjectsByHash_loop s HashRequest_RECEIPTS hashes [])
      as [e|out] eqn:Hout; [done|].
    intros [= <-]. destruct (Hloop _ _ _ Hout) as (raws & Hall & ->).
    by exists raws.
Qed.

End service_more.

(** ** The client *)

Section client_properties.
Import machine types protocol.
Context {Body : Type}.
Variable zero_Body : Body.
Variable UnmarshalRLP : list Byte.byte → error + Body.
Variable Hash_String : Hash → string.
Variable Value_is_nil : Response_Component → bool.
Variable clt_GetObjectsByHash : HashRequest → error + Response.

Local Abbreviation getBodies_loop :=
  (protocol.getBodies_loop zero_Body UnmarshalRLP Value_is_nil).
Local Abbreviation getBodies :=
  (protocol.getBodies zero_Body UnmarshalRLP Hash_String Value_is_nil
     clt_GetObjectsByHash).
Local Abbreviation decoded_body :=
  (protocol.decoded_body zero_Body UnmarshalRLP Value_is_nil).

Lemma getBodies_loop_ok (objs : list Response_Component) :
  ∀ res out, getBodies_loop objs res = inr out →
    ∃ new, out = res ++ new ∧
      Forall2 (λ obj body, decoded_body obj = inr body) objs new.
Proof.
  induction objs as [|obj objs IH]; intros res out; simpl.
  - intros [= <-]. exists []. by rewrite app_nil_r.
  - unfold protocol.decoded_body at 1.
    destruct (Value_is_nil obj) eqn:Hnil.
    + intros Hout. destruct (IH _ _ Hout) as (new & -> & Hall).
      exists (zero_Body :: new). rewrite <- (assoc_L (++)). split; [done|].
      constructor; [|done]. unfold protocol.decoded_body. by rewrite Hnil.
    + destruct (UnmarshalRLP (Value obj)) as [e|body] eqn:Hdec; [done|].
      intros Hout. destruct (IH _ _ Hout) as (new & -> & Hall).
      exists (body :: new). rewrite <- (assoc_L (++)). split; [done|].
      constructor; [|done]. unfold protocol.decoded_body. by rewrite Hnil.
Qed.

Lemma getBodies_loop_all (objs : list Response_Component) (new : list Body) :
  Forall2 (λ obj body, decoded_body obj = inr body) objs new →
  ∀ res, getBodies_loop objs res = inr (res ++ new).
Proof.
  induction 1 as [|obj body objs new Hd _ IH]; intros res; simpl.
  - by rewrite app_nil_r.
  - unfold protocol.decoded_body in Hd. destruct (Value_is_nil obj).
    + injection Hd as <-. rewrite IH. by rewrite <- (assoc_L (++)).
    + rewrite Hd, IH. by rewrite <- (assoc_L (++)).
Qed.

(** X22. When [getBodies] returns bodies there is one per hash asked for, the
    i-th decoded from the i-th object of the peer's response (the zero body
    for a nil payload). When every object of the response decodes, the call
    fails with the size error exactly if the response has another number of
    objects than hashes were asked for. *)
Theorem getBodies_one_body_per_hash (hashes : list Hash) :
  (∀ res, getBodies hashes = inr res →
     length res = length hashes ∧
     ∃ resp,
       clt_GetObjectsByHash
         (mkHashRequest (Hash_String <$> hashes) HashRequest_BODIES)
       = inr resp ∧
       Forall2 (λ obj body, decoded_body obj = inr body) (Objs resp) res) ∧
  (∀ resp bodies,
     clt_GetObjectsByHash
       (mkHashRequest (Hash_String <$> hashes) HashRequest_BODIES)
     = inr resp →
     Forall2 (λ obj body, decoded_body obj = inr body) (Objs resp) bodies →
     getBodies hashes =
     if decide (length (Objs resp) = length hashes) then inr bodies
     else inl "not correct size"%string).
Proof.
  unfold protocol.getBodies. split.
  - intros res.
    destruct (clt_GetObjectsByHash _) as [e|resp]; [done|].
    destruct (getBodies_loop (Objs resp) []) as [e|out] eqn:Hloop; [done|].
    case_decide as Hlen; [done|]. intros [= <-].
    rewrite length_fmap in Hlen.
    split; [destruct (decide (length out = length hashes)); [done|contradiction]|].
    exists resp. split; [done|].
    by destruct (getBodies_loop_ok _ _ _ Hloop) as (new & -> & Hall).
  - intros resp bodies -> Hall.
    rewrite (getBodies_loop_all _ _ Hall). simpl.
    rewrite length_fmap. rewrite <- (Forall2_length _ _ _ Hall).
    destruct (decide (length (Objs resp) = length hashes)), 
             (decide (length (Objs resp) ≠ length hashes)); done.
Qed.

End client_properties.

Section client_and_service.
Import machine types protocol.
Context {Body Receipt : Type}.
Context `{!rlpObject Header, !rlpObject Body, !rlpObject (list Receipt)}.
Variable DecodeHashes : HashRequest → error + list Hash.
Variable zero_Body : Body.
Variable UnmarshalRLP : list Byte.byte → error + Body.
Variable Hash_String : Hash → string.
Variable Value_is_nil : Response_Component → bool.

Lemma GetObjectsByHash_loop_bodies_eq (s : blockchainShim Body Receipt)
    (hashes : list Hash) :
  ∀ objs,
    GetObjectsByHash_loop s HashRequest_BODIES hashes objs
    = inr (objs ++
           ((λ h, mkComponent (match GetBodyByHash s h with
                               | Some b => MarshalRLPTo b []
                               | None => []
                               end)) <$> hashes)).
Proof.
  induction hashes as [|h rest IH]; intros objs; simpl.
  - by rewrite app_nil_r.
  - rewrite IH, <- (assoc_L (++)). simpl.
    by destruct (GetBodyByHash s h).
Qed.

(** X23. [getBodies] against the service: if the body codec and the hash
    text round-trip and the transport delivers an empty payload as nil, the
    client gets, for each hash in order, the body the store holds, and the
    zero body for a hash the store does not hold. *)
Theorem getBodies_from_service (s : blockchainShim Body Receipt)
    (hashes : list Hash) :
  (∀ b : Body, UnmarshalRLP (MarshalRLPTo b []) = inr b) →
  (∀ b : Body, MarshalRLPTo b [] ≠ []) →
  (∀ obj, Value_is_nil obj = true ↔ Value obj = []) →
  DecodeHashes (mkHashRequest (Hash_String <$> hashes) HashRequest_BODIES)
  = inr hashes →
  getBodies zero_Body UnmarshalRLP Hash_String Value_is_nil
    (GetObjectsByHash DecodeHashes s) hashes
  = inr ((λ h, default zero_Body (GetBodyByHash s h)) <$> hashes).
Proof.
  intros Hcodec Hnonempty Hnil Hdec.
  unfold getBodies, GetObjectsByHash. rewrite Hdec. cbn [HR_Type].
  rewrite GetObjectsByHash_loop_bodies_eq. cbn [app Objs].
  rewrite (getBodies_loop_all zero_Body UnmarshalRLP Value_is_nil _
             ((λ h, default zero_Body (GetBodyByHash s h)) <$> hashes)).
  - cbn [app]. rewrite !length_fmap.
    by destruct (decide (length hashes ≠ length hashes)).
  - apply Forall2_fmap, Forall_Forall2_diag, Forall_forall. intros h _.
    unfold decoded_body. destruct (GetBodyByHash s h) as [b|]; simpl.
    + destruct (Value_is_nil (mkComponent (MarshalRLPTo b []))) eqn:Hn.
      * apply Hnil in Hn. simpl in Hn. by destruct (Hnonempty b).
      * apply Hcodec.
    + destruct (Value_is_nil (mkComponent [])) eqn:Hn; [done|].
      assert (Value_is_nil (mkComponent []) = true) by (by apply Hnil).
      congruence.
Qed.

End client_and_service.

(** ** The further statements on the sample chain *)

Section more_on_the_sample_chain.
Import machine types protocol.

Lemma GetHeaders_response_capped_witness :
  Z.of_nat (length (addData <$> (sample.header_at <$> seqZ 10 11)))
  <= maxHeadersAmount.
Proof.
  refine (proj1 (GetHeaders_response_capped sample.UnmarshalText
                   (sample.chain 20) (mkGetHeadersRequest 10 EmptyString 0 500)
                   (mkResponse (addData <$> (sample.header_at <$> seqZ 10 11)))
                   _)).
  reflexivity.
Defined.

(** From the block of hash 0x0a on the heights 0 to 20, with a skip of -3:
    the step is -2 and the headers 10, 8, 6 and 4 are returned. *)
Lemma GetHeaders_by_hash_progression_witness :
  ∃ hs : list Header,
    GetHeaders sample.UnmarshalText (sample.chain 20)
      (mkGetHeadersRequest 0 "0x0a" (-3) 4)
    = inr (mkResponse (addData <$> sample.header_at 10 :: hs)) ∧
    ∀ (i : nat) h, hs !! i = Some h → Number h = 10 + (Z.of_nat i + 1) * -2.
Proof.
  destruct (GetHeaders_by_hash_progression sample.UnmarshalText
              (sample.chain 20) (mkGetHeadersRequest 0 "0x0a" (-3) 4)
              10%N (sample.header_at 10))
    as (hs & Hres & _ & Hnth & _).
  - apply sample_chain_wf.
  - reflexivity.
  - reflexivity.
  - reflexivity.
  - simpl. lia.
  - exists hs. split; [exact Hres|]. intros i h Hi. by apply Hnth.
Defined.

Lemma GetHeaders_skip_minus_one_witness :
  GetHeaders sample.UnmarshalText (sample.chain 20)
    (mkGetHeadersRequest 10 EmptyString (-1) 3)
  = inr (mkResponse (replicate 3 (addData (sample.header_at 10)))).
Proof.
  apply (GetHeaders_skip_minus_one sample.UnmarshalText (sample.chain 20)
           (mkGetHeadersRequest 10 EmptyString (-1) 3) (sample.header_at 10));
    simpl; first [reflexivity | lia].
Defined.

Lemma GetObjectsByHash_unknown_kind_witness :
  GetObjectsByHash sample.DecodeHashes (sample.chain 20)
    (mkHashRequest ["0x01"; "0xff"] (HashRequest_unknown 7))
  = inr (mkResponse (replicate 2 (mkComponent []))).
Proof.
  apply (GetObjectsByHash_unknown_kind sample.DecodeHashes (sample.chain 20)
           (mkHashRequest ["0x01"; "0xff"] (HashRequest_unknown 7)) 7
           [1; 255]%N); reflexivity.
Defined.

Lemma GetObjectsByHash_receipts_all_or_nothing_witness :
  GetObjectsByHash sample.DecodeHashes (sample.chain 20)
    (mkHashRequest ["0x01"; "0x03"] HashRequest_RECEIPTS)
  = inr (mkResponse
           ((λ raw, mkComponent (MarshalRLPTo raw [])) <$>
              [[sample.mkReceipt 21000; sample.mkReceipt 1];
               [sample.mkReceipt 21000; sample.mkReceipt 3]])).
Proof.
  refine (proj1 (GetObjectsByHash_receipts_all_or_nothing sample.DecodeHashes
                   (sample.chain 20)
                   (mkHashRequest ["0x01"; "0x03"] HashRequest_RECEIPTS)
                   [1; 3]%N _ _) _ _); [reflexivity|reflexivity|].
  repeat constructor.
Defined.

Lemma getBodies_from_service_witness :
  getBodies (sample.mkBlob []) sample.Blob_UnmarshalRLP sample.hash_text
    sample.empty_is_nil
    (GetObjectsByHash sample.DecodeHashes (sample.blob_chain 20))
    [1; 255; 3]%N
  = inr [sample.blob_at 1%N; sample.mkBlob []; sample.blob_at 3%N].
Proof.
  apply (getBodies_from_service sample.DecodeHashes (sample.mkBlob [])
           sample.Blob_UnmarshalRLP sample.hash_text sample.empty_is_nil
           (sample.blob_chain 20) [1; 255; 3]%N).
  - by intros [bytes].
  - by intros [bytes].
  - intros obj. unfold sample.empty_is_nil. apply bool_decide_eq_true.
  - reflexivity.
Defined.

End more_on_the_sample_chain.
